(** * AVO-Next: scenario execution client and cart comparison

    A shallow embedding of the scenario components of the client
    ([Scenarios.tsx], [ScenarioDetail.tsx], [scenario-types.ts]) together
    with the properties of the cart comparison, the pollers and the batch
    selection that the specification states about them. *)

From Stdlib Require Import Ascii ZArith QArith Lia Lqa SpecFloat.
From stdpp Require Import base gmap sets list strings sorting.

Local Open Scope Z_scope.

(** ** Data model ([scenario-types.ts]) *)

(** [CartItem]: quantities arrive as JSON numbers; the cart editor and the
    order format only produce integers, so [quantity] is an integer here. *)
Record CartItem := mkCartItem {
  product_id : string;
  product_name : string;
  quantity : Z;
  unit : string
}.

#[global] Instance CartItem_eq_dec : EqDecision CartItem.
Proof. solve_decision. Defined.

(** ** Cart comparison helpers of the detail view ([ScenarioDetail.tsx]) *)

(** [cartItemsMatch]: strict equality on product id, quantity and unit. *)
Definition cartItemsMatch (gt pred : CartItem) : bool :=
  bool_decide (product_id gt = product_id pred) &&
  bool_decide (quantity gt = quantity pred) &&
  bool_decide (unit gt = unit pred).






(** [getMissingItems]: [filter] with a negated [some]. *)
Definition getMissingItems (groundTruth predictions : list CartItem)
  : list CartItem :=
  List.filter
    (fun gt => negb (existsb (fun pred => bool_decide (product_id pred = product_id gt))
                             predictions))
    groundTruth.

(** [isExactMatch], the constant computed per model in the results tab:
    equal lengths and [every]/[some] over [cartItemsMatch]. *)
Definition isExactMatch (gtItems predItems : list CartItem) : bool :=
  bool_decide (length gtItems = length predItems) &&
  forallb (fun gt => existsb (fun pred => cartItemsMatch gt pred) predItems) gtItems.

(** The specification's reading of an exact match, as a relation: the two
    carts are equal as sets of (product id, quantity, unit) triples. *)
Definition itemKey (c : CartItem) : string * Z * string :=
  (product_id c, quantity c, unit c).

Definition spec_exact_match (gtItems predItems : list CartItem) : Prop :=
  (∀ g, g ∈ gtItems → ∃ p, p ∈ predItems ∧ itemKey g = itemKey p) ∧
  (∀ p, p ∈ predItems → ∃ g, g ∈ gtItems ∧ itemKey g = itemKey p).


(** ** Cost of a model result ([ScenarioDetail.tsx]) *)

Record ModelExecutionResult := mkModelExecutionResult {
  model_name : string;
  llm_transcription : option string;
  ai_response : option string;
  raw_llm_response : option string;
  predicted_cart : option (list CartItem);
  input_tokens : option Z;
  output_tokens : option Z;
  latency_ms : option Z;
  executed_at : option string;
  error : option string
}.

(** Prices per million tokens, in USD, as exact rationals. The definitions
    of this section give the exact value of the cost formula, for the model
    names the cost tab passes (those of [COMPARISON_MODELS]); the properties
    of the cost charts are stated on them. [IEEE.calculateCost] below is the
    same function on the code's floating-point numbers and for every string
    as model name. *)
Record Pricing := mkPricing {
  input_small : Q;
  input_large : Q;
  output_small : Q;
  output_large : Q
}.

Definition PRICING_PRO : Pricing :=
  {| input_small := 5 # 4; input_large := 5 # 2;
     output_small := 10 # 1; output_large := 15 # 1 |}.

Definition PRICING_FLASH : Pricing :=
  {| input_small := 3 # 10; input_large := 3 # 10;
     output_small := 5 # 2; output_large := 5 # 2 |}.

(** [MODEL_PRICING], read through its own keys (see [IEEE.getProperty] for
    the lookup under the property names of [Object.prototype]). *)
Definition MODEL_PRICING : gmap string Pricing :=
  <["gemini-2.5-pro" := PRICING_PRO]> (<["gemini-2.5-flash" := PRICING_FLASH]> ∅).

(** JavaScript truthiness of a token count: [0] is falsy, and so is a
    missing ([undefined]) one. *)
Definition falsy (n : Z) : bool := n =? 0.

Definition falsyOpt (n : option Z) : bool :=
  match n with
  | None => true
  | Some k => falsy k
  end.

Definition calculateCost (inputTokens outputTokens : Z) (modelName : string) : Q :=
  if falsy inputTokens || falsy outputTokens then 0%Q
  else
    let pricing := default PRICING_PRO (MODEL_PRICING !! modelName) in
    let inputCost := (inject_Z inputTokens / 1000000 * input_small pricing)%Q in
    let outputCost := (inject_Z outputTokens / 1000000 * output_small pricing)%Q in
    (inputCost + outputCost)%Q.

Definition calculateModelResultCost
    (result : option ModelExecutionResult) (modelName : string) : Q :=
  if falsyOpt (result ≫= input_tokens) || falsyOpt (result ≫= output_tokens) then 0%Q
  else calculateCost (default 0 (result ≫= input_tokens))
                     (default 0 (result ≫= output_tokens)) modelName.

(** ** Batch selection of the scenario list ([Scenarios.tsx]) *)

(** A JavaScript [Set<string>]: its elements in insertion order. *)
Module JSSet.
Definition t := list string.
Definition empty : t := [].
Definition has (x : string) (s : t) : bool := bool_decide (x ∈ s).
Definition add (x : string) (s : t) : t := if has x s then s else s ++ [x].
Definition delete (x : string) (s : t) : t :=
  List.filter (fun y => negb (bool_decide (y = x))) s.
Definition size (s : t) : nat := length s.
(** [new Set(iterable)] adds the elements one after the other. *)
Definition of_array (l : list string) : t := foldl (fun s x => add x s) empty l.
(** [Array.from(set)] lists the elements in insertion order. *)
Definition to_array (s : t) : list string := s.
End JSSet.

Definition toggleScenarioSelection (scenarioId : string) (prev : JSSet.t) : JSSet.t :=
  let newSet := prev in
  if JSSet.has scenarioId newSet then JSSet.delete scenarioId newSet
  else JSSet.add scenarioId newSet.

(** [selectAllScenarios], given the ids of the scenarios loaded then. *)
Definition selectAllScenarios (allIds : list string) : JSSet.t :=
  JSSet.of_array allIds.

Definition clearSelection : JSSet.t := JSSet.empty.

(** What the user can do to the selection between two batch requests. *)
Inductive SelectionAction :=
  | Toggle (scenarioId : string)
  | SelectAll (allIds : list string)
  | ClearSelection.

Definition applySelection (sel : JSSet.t) (a : SelectionAction) : JSSet.t :=
  match a with
  | Toggle scenarioId => toggleScenarioSelection scenarioId sel
  | SelectAll allIds => selectAllScenarios allIds
  | ClearSelection => clearSelection
  end.

(** The selection after a sequence of actions on the initial, empty one. *)
Definition selectionAfter (actions : list SelectionAction) : JSSet.t :=
  foldl applySelection JSSet.empty actions.

(** [handleBatchExecute]: the id list handed to [scenarioAPI.batchExecute],
    or [None] when the guard on an empty selection returns early. *)
Definition handleBatchExecute (selectedScenarios : JSSet.t) : option (list string) :=
  if (JSSet.size selectedScenarios =? 0)%nat then None
  else Some (JSSet.to_array selectedScenarios).

(** ** Execution status as the client sees it ([scenario-types.ts]) *)

(** The declared union type [ExecutionStatus]. *)
Inductive ExecutionStatus :=
  | pending
  | running
  | completed
  | failed.

(** The string literal each member of the union stands for. *)
Definition ExecutionStatus_literal (s : ExecutionStatus) : string :=
  match s with
  | pending => "pending"
  | running => "running"
  | completed => "completed"
  | failed => "failed"
  end.

(** [ExecutionStatusInfo] as it is decoded from the status endpoint: types
    are erased at run time, so [status] is whatever string the server sent.
    [status_error] is its field [error]. *)
Record ExecutionStatusInfo := mkExecutionStatusInfo {
  status : string;
  current_model : option string;
  current_model_index : option Z;
  total_models : option Z;
  current_step : Z;
  total_steps : Z;
  steps_processed : Z;
  steps_skipped : Z;
  steps_failed : Z;
  models_completed : option Z;
  status_error : option string
}.

(** The test both pollers apply to a status response before they stop. *)
Definition isTerminalStatus (s : string) : bool :=
  bool_decide (s = "completed") || bool_decide (s = "failed") ||
  bool_decide (s = "cancelled").

Inductive ToastKind := toast_success | toast_info | toast_error | toast_warning.

(** A toast, tagged with the scenario whose poller raised it. *)
Record Toast := mkToast {
  toast_scenario : string;
  toast_kind : ToastKind;
  toast_message : string
}.

(** JavaScript's [a || b] on optional strings: the empty string is falsy. *)
Definition orElse (a : option string) (b : string) : string :=
  match a with
  | Some s => if bool_decide (s = "") then b else s
  | None => b
  end.

Definition toastsFor (scenarioId : string) (ts : list Toast) : nat :=
  length (List.filter (fun t => bool_decide (toast_scenario t = scenarioId)) ts).

Definition dquote : string := String "034"%char "".

(** What [setInterval] registers: the handle it returns and the period, in
    milliseconds, at which the callback is run until [clearInterval]. *)
Record Interval := mkInterval {
  handle : Z;
  period_ms : Z
}.

(** The toast the list poller raises for a terminal status; [label] is the
    quoted scenario name its message starts with. *)
Definition terminalToast (scenarioId label : string)
    (response : ExecutionStatusInfo) : Toast :=
  if bool_decide (status response = "completed") then
    mkToast scenarioId toast_success (label +:+ " completed successfully")
  else if bool_decide (status response = "cancelled") then
    mkToast scenarioId toast_info (label +:+ " was cancelled")
  else
    mkToast scenarioId toast_error
      (label +:+ " failed: " +:+ orElse (status_error response) "Unknown error").

(** ** The poller of the scenario list ([Scenarios.tsx], [startPolling]) *)

Module ScenarioList.

(** The fields of a [Scenario] the list poller reads. *)
Record Scenario := mkScenario {
  scenario_id : string;
  name : string
}.

(** The component state the poller touches, with its effects made
    explicit: the toasts shown, the [setTimeout] callbacks not yet run (delay
    in milliseconds and the scenario they clear), the [setInterval] handles
    and the number of [loadScenarios(false)] refreshes. *)
Record State := mkState {
  scenarios : list Scenario;
  executionStatuses : gmap string ExecutionStatusInfo;
  pollingIntervals : gmap string Interval;
  completedScenarios : gset string;
  toasts : list Toast;
  timeouts : list (Z * string);
  refreshes : nat
}.

Definition POLL_INTERVAL_MS : Z := 2000.
Definition CLEAR_DELAY_MS : Z := 3000.

(** The name a toast shows. The scenario list is read from the state; the
    closure of [poll] reads it as it was when [startPolling] was called, which
    can only change the text of the toast. *)
Definition displayName (scenarioName : option string) (scenarioId : string)
    (st : State) : string :=
  orElse scenarioName
    (orElse (name <$> find (fun s => bool_decide (scenario_id s = scenarioId))
                           (scenarios st))
            "Scenario").

(** The body of [poll] once [getExecutionStatus] has answered. *)
Definition onPollResponse (scenarioId : string) (scenarioName : option string)
    (response : ExecutionStatusInfo) (st : State) : State :=
  let statuses := <[scenarioId := response]> (executionStatuses st) in
  if isTerminalStatus (status response) then
    let intervals := delete scenarioId (pollingIntervals st) in
    if bool_decide (scenarioId ∈ completedScenarios st) then
      mkState (scenarios st) statuses intervals (completedScenarios st)
              (toasts st) (timeouts st) (refreshes st)
    else
      let label := dquote +:+ displayName scenarioName scenarioId st +:+ dquote in
      mkState (scenarios st) statuses intervals
              ({[scenarioId]} ∪ completedScenarios st)
              (toasts st ++ [terminalToast scenarioId label response])
              (timeouts st ++ [(CLEAR_DELAY_MS, scenarioId)])
              (S (refreshes st))
  else
    mkState (scenarios st) statuses (pollingIntervals st) (completedScenarios st)
            (toasts st) (timeouts st) (refreshes st).

(** The callback handed to [setTimeout]: it forgets the status entry and
    lets the scenario notify again. *)
Definition clearStatus (scenarioId : string) (st : State) : State :=
  mkState (scenarios st) (delete scenarioId (executionStatuses st))
          (pollingIntervals st) (completedScenarios st ∖ {[scenarioId]})
          (toasts st) (timeouts st) (refreshes st).

(** [startPolling]: drops the previous interval of the scenario, if any, and
    registers a new one under the handle [timer]; the first [poll] is issued
    at once and answered later. *)
Definition startPolling (scenarioId : string) (timer : Z) (st : State) : State :=
  mkState (scenarios st) (executionStatuses st)
          (<[scenarioId := mkInterval timer POLL_INTERVAL_MS]> (pollingIntervals st))
          (completedScenarios st) (toasts st) (timeouts st) (refreshes st).

(** One answer of the status endpoint reaching the poller of a scenario. *)
Record Answer := mkAnswer {
  answer_scenario : string;
  answer_name : option string;
  answer_status : ExecutionStatusInfo
}.

(** The poll answers of any scenarios, processed in their order of arrival. *)
Definition pollAll (answers : list Answer) (st : State) : State :=
  foldl (fun s a => onPollResponse (answer_scenario a) (answer_name a)
                                   (answer_status a) s) st answers.

End ScenarioList.

(** ** The poller of the detail view ([ScenarioDetail.tsx], [startPolling]) *)

Module ScenarioDetail.

(** The state of the detail view the poller touches; [inFlight] counts the
    [getExecutionStatus] requests issued and not yet answered. *)
Record State := mkState {
  scenario_id : string;
  executionStatus : option ExecutionStatusInfo;
  pollingInterval : option Interval;
  executing : bool;
  rerunningStepId : option string;
  toasts : list Toast;
  comparisonLoads : nat;
  inFlight : nat
}.

Definition POLL_INTERVAL_MS : Z := 1000.

(** [poll] up to its [await]: one more request is in flight. *)
Definition issuePoll (st : State) : State :=
  mkState (scenario_id st) (executionStatus st) (pollingInterval st) (executing st)
          (rerunningStepId st) (toasts st) (comparisonLoads st) (S (inFlight st)).

(** [startPolling]: clears the previous interval, polls at once and
    registers the interval under the handle [timer]. *)
Definition startPolling (timer : Z) (st : State) : State :=
  let st1 := issuePoll st in
  mkState (scenario_id st1) (executionStatus st1)
          (Some (mkInterval timer POLL_INTERVAL_MS)) (executing st1)
          (rerunningStepId st1) (toasts st1) (comparisonLoads st1) (inFlight st1).

(** The body of [poll] after its [await], for one answered request. The
    scenario handed to [onUpdate] and the delayed switch to the results tab
    belong to the parent and to the layout, and are left out. *)
Definition onPollResponse (response : ExecutionStatusInfo) (st : State) : State :=
  if isTerminalStatus (status response) then
    mkState (scenario_id st) (Some response) None false None
            (toasts st ++
               [if bool_decide (status response = "completed") then
                  mkToast (scenario_id st) toast_success "Execution completed successfully!"
                else if bool_decide (status response = "cancelled") then
                  mkToast (scenario_id st) toast_info "Execution cancelled"
                else
                  mkToast (scenario_id st) toast_error
                    ("Execution failed: " +:+
                     orElse (status_error response) "Unknown error")])
            (if bool_decide (status response = "completed")
             then S (comparisonLoads st) else comparisonLoads st)
            (inFlight st)
  else
    mkState (scenario_id st) (Some response) (pollingInterval st) (executing st)
            (rerunningStepId st) (toasts st) (comparisonLoads st) (inFlight st).

(** What the event loop can deliver to the poller: the interval firing, or
    the answer to a request in flight. *)
Inductive Event :=
  | Tick
  | Response (response : ExecutionStatusInfo)
  | RequestError.

(** An interval that was cleared no longer fires; an answer needs a request
    in flight, and a request that throws is only logged by the [catch].
    Events that cannot occur leave the state as it is. *)
Definition step (st : State) (e : Event) : State :=
  match e with
  | Tick =>
      match pollingInterval st with
      | Some _ => issuePoll st
      | None => st
      end
  | Response response =>
      match inFlight st with
      | O => st
      | S n =>
          onPollResponse response
            (mkState (scenario_id st) (executionStatus st) (pollingInterval st)
                     (executing st) (rerunningStepId st) (toasts st)
                     (comparisonLoads st) n)
      end
  | RequestError =>
      mkState (scenario_id st) (executionStatus st) (pollingInterval st)
              (executing st) (rerunningStepId st) (toasts st)
              (comparisonLoads st) (pred (inFlight st))
  end.

Definition run (events : list Event) (st : State) : State := foldl step st events.

End ScenarioDetail.

(** ** Cart comparison metrics of the backend *)

Module Compare.

(** Modelled from the spec: the backend's [compare_carts] (the Python
    service [scenario_service.py] that fills [CartComparisonResult]) is not
    part of the client sources. Section 4.1 of the specification: a lookup of
    the ground-truth items by product id; every predicted item whose looked-up
    item has the same quantity and unit is a true positive;
    [precision = tp / max(1, len(predicted))],
    [recall = tp / max(1, len(ground_truth))] and [f1] is [0] when their sum
    is [0], else [2 * precision * recall / (precision + recall)]. *)
Definition gtLookup (ground_truth : list CartItem) : gmap string CartItem :=
  list_to_map ((fun g => (product_id g, g)) <$> ground_truth).

(** Modelled from the spec: a predicted item is a true positive when the
    ground-truth item looked up under its product id has the same quantity
    and the same unit (the backend's matching loop is not in the sources). *)
Definition isTruePositive (lookup : gmap string CartItem) (p : CartItem) : bool :=
  match lookup !! product_id p with
  | Some g => bool_decide (quantity g = quantity p) && bool_decide (unit g = unit p)
  | None => false
  end.

(** Modelled from the spec: the predicted items counted as true positives
    (the backend's matching loop is not in the sources). *)
Definition truePositives (ground_truth predicted : list CartItem) : list CartItem :=
  List.filter (isTruePositive (gtLookup ground_truth)) predicted.

(** Modelled from the spec: [n / max(1, d)], the shape of both metrics (the
    backend's arithmetic is not in the sources); exact rationals stand for
    its floating-point numbers. *)
Definition ratio (n d : nat) : Q :=
  (inject_Z (Z.of_nat n) / inject_Z (Z.of_nat (Nat.max 1 d)))%Q.

(** Modelled from the spec: [f1 = 0 if precision + recall == 0 else
    2 * precision * recall / (precision + recall)] (not in the sources). *)
Definition f1Of (precision recall : Q) : Q :=
  if Qeq_bool (precision + recall) 0 then 0%Q
  else (2 * precision * recall / (precision + recall))%Q.

(** The metric fields of [CartComparisonResult] ([scenario-types.ts]). *)
Record Metrics := mkMetrics {
  precision : Q;
  recall : Q;
  f1_score : Q
}.

(** Modelled from the spec: the metrics [compare] returns for a
    ground-truth and a predicted cart (the backend function that computes
    them is not in the sources). *)
Definition compare (ground_truth predicted : list CartItem) : Metrics :=
  let tp := length (truePositives ground_truth predicted) in
  let p := ratio tp (length predicted) in
  let r := ratio tp (length ground_truth) in
  mkMetrics p r (f1Of p r).


End Compare.

(** ** The execution status store of the backend *)

Module StatusStore.

(** Modelled from the spec: the five states of section 4.2 (the backend's
    [ExecutionStatus] enumeration is not in the sources). *)
Inductive Status := Pending | Running | Completed | Failed | Cancelled.

#[global] Instance Status_eq_dec : EqDecision Status.
Proof. solve_decision. Defined.

(** Modelled from the spec: the terminal states of section 4.2,
    [completed], [failed] and [cancelled] (not in the sources). *)
Definition isTerminal (s : Status) : bool :=
  match s with
  | Completed | Failed | Cancelled => true
  | Pending | Running => false
  end.

(** Modelled from the spec: one [ExecutionStatusInfo] entry of the store,
    with the counters the orchestrator advances (section 3; the backend's
    record is not in the sources). *)
Record Entry := mkEntry {
  entry_status : Status;
  entry_total_models : nat;
  entry_total_steps : nat;
  entry_steps_processed : nat;
  entry_error : option string
}.

(** Modelled from the spec: the store keyed by scenario id (section 9),
    together with the executions the worker is running, one element per
    execution, named by its scenario, and the cleanups that are due, one per
    terminal transition whose delay has not elapsed yet (section 4.2; not in
    the sources). *)
Record Engine := mkEngine {
  entries : gmap string Entry;
  inFlight : list string;
  cleanups : list string
}.

(** Modelled from the spec: the store of a process that has run nothing
    yet (section 1: no state survives a restart; not in the sources). *)
Definition initial : Engine := mkEngine ∅ [] [].

(** Modelled from the spec: a request is accepted, or rejected with a
    reason reported synchronously and no state mutated (section 7; the
    backend's error responses are not in the sources). *)
Inductive Reply :=
  | Accepted
  | Rejected (reason : string).

(** Modelled from the spec: "start execution: if no existing entry or
    existing entry is terminal/absent, create entry, status=running, totals
    set from the scenario snapshot. If an entry exists with status=running,
    the request is rejected" (the backend route is not in the sources). A
    queued, pending scenario is started by the batch worker the same way. *)
Definition startExecution (scenarioId : string) (models steps : nat)
    (e : Engine) : Engine * Reply :=
  let started :=
    mkEngine (<[scenarioId := mkEntry Running models steps 0 None]> (entries e))
             (scenarioId :: inFlight e) (cleanups e) in
  match entries e !! scenarioId with
  | Some en =>
      if bool_decide (entry_status en = Running)
      then (e, Rejected "execution already running")
      else (started, Accepted)
  | None => (started, Accepted)
  end.

(** Removes one occurrence: the execution that ended, not its namesakes. *)
Fixpoint removeOne (x : string) (l : list string) : list string :=
  match l with
  | [] => []
  | y :: l' => if bool_decide (y = x) then l' else y :: removeOne x l'
  end.

(** Modelled from the spec: the other transitions of section 4.2 and the
    enqueue of section 4.3 (the backend worker is not in the sources):
    queueing creates a pending entry unless the scenario is running or
    queued; progress advances the counter of a running execution; a running
    execution ends in one terminal state, which makes one cleanup due;
    "cleanup: a fixed delay after reaching a terminal state, the entry is
    removed": a cleanup that is due removes the entry of the scenario,
    whatever the entry is by then. *)
Inductive Request :=
  | Start (scenarioId : string) (models steps : nat)
  | Enqueue (scenarioId : string)
  | Progress (scenarioId : string)
  | Finish (scenarioId : string) (outcome : Status) (err : option string)
  | Cleanup (scenarioId : string).

(** Modelled from the spec: the store's reaction to one request, applied
    atomically (section 5: one critical section per scenario id; the backend
    is not in the sources). *)
Definition step (e : Engine) (r : Request) : Engine * Reply :=
  match r with
  | Start scenarioId models steps => startExecution scenarioId models steps e
  | Enqueue scenarioId =>
      match entries e !! scenarioId with
      | Some en =>
          if isTerminal (entry_status en)
          then (mkEngine (<[scenarioId := mkEntry Pending 0 0 0 None]> (entries e))
                         (inFlight e) (cleanups e), Accepted)
          else (e, Rejected "already running or queued")
      | None =>
          (mkEngine (<[scenarioId := mkEntry Pending 0 0 0 None]> (entries e))
                    (inFlight e) (cleanups e), Accepted)
      end
  | Progress scenarioId =>
      match entries e !! scenarioId with
      | Some en =>
          if bool_decide (scenarioId ∈ inFlight e)
          then (mkEngine
                  (<[scenarioId := mkEntry (entry_status en) (entry_total_models en)
                                           (entry_total_steps en)
                                           (S (entry_steps_processed en))
                                           (entry_error en)]> (entries e))
                  (inFlight e) (cleanups e), Accepted)
          else (e, Rejected "no execution to advance")
      | None => (e, Rejected "no execution to advance")
      end
  | Finish scenarioId outcome err =>
      match entries e !! scenarioId with
      | Some en =>
          if bool_decide (scenarioId ∈ inFlight e) && isTerminal outcome
          then (mkEngine
                  (<[scenarioId := mkEntry outcome (entry_total_models en)
                                           (entry_total_steps en)
                                           (entry_steps_processed en) err]> (entries e))
                  (removeOne scenarioId (inFlight e))
                  (cleanups e ++ [scenarioId]), Accepted)
          else (e, Rejected "no execution to end")
      | None => (e, Rejected "no execution to end")
      end
  | Cleanup scenarioId =>
      if bool_decide (scenarioId ∈ cleanups e)
      then (mkEngine (delete scenarioId (entries e)) (inFlight e)
                     (removeOne scenarioId (cleanups e)), Accepted)
      else (e, Rejected "no cleanup due")
  end.

(** Modelled from the spec: the requests of a whole session, applied one
    after the other (section 5; not in the sources). *)
Definition run (requests : list Request) (e : Engine) : Engine :=
  foldl (fun e r => fst (step e r)) e requests.





End StatusStore.

(** ** Reference notions the properties are stated with *)

(** A ground-truth item is missing when no predicted item has its id. *)
Definition isMissing (predictions : list CartItem) (g : CartItem) : Prop :=
  ∀ p, p ∈ predictions → product_id p ≠ product_id g.

#[local] Instance isMissing_dec predictions g : Decision (isMissing predictions g).
Proof.
  refine (cast_if (decide (Forall (fun p => product_id p ≠ product_id g) predictions)));
    unfold isMissing; rewrite Forall_forall in *; auto.
Defined.

(** The small-tier cost the cost tab charges for [i] input and [o] output
    tokens under a price table. *)
Definition smallTierCost (i o : Z) (pr : Pricing) : Q :=
  (inject_Z i / 1000000 * input_small pr + inject_Z o / 1000000 * output_small pr)%Q.

(** ** Sample data *)

Definition itemA (q : Z) : CartItem := mkCartItem "A" "Product A" q "box".

Definition itemOf (pid : string) (q : Z) : CartItem := mkCartItem pid pid q "box".

Definition flashResult (i o : option Z) : ModelExecutionResult :=
  mkModelExecutionResult "gemini-2.5-flash" None None None None i o None None None.

Definition statusInfo (s : string) (err : option string) : ExecutionStatusInfo :=
  mkExecutionStatusInfo s None None None 0 0 0 0 0 None err.

Definition listState : ScenarioList.State :=
  ScenarioList.mkState [ScenarioList.mkScenario "s1" "Order two boxes"]
    (<["s1" := statusInfo "running" None]> (<["s2" := statusInfo "running" None]> ∅))
    (<["s1" := mkInterval 7 ScenarioList.POLL_INTERVAL_MS]> ∅) ∅ [] [] 0.

Definition detailState : ScenarioDetail.State :=
  ScenarioDetail.mkState "s1" None None true None [] 0 0.


(** ** The numbers of the code: IEEE 754 binary64 *)

Module IEEE.

(** A JavaScript number is a binary64 floating-point number: 53 bits of
    precision, exponents below 1024, rounding to nearest with ties to even. *)
Definition number : Type := spec_float.

Definition prec : Z := 53.
Definition emax : Z := 1024.

Definition add : number → number → number := SFadd prec emax.
Definition mul : number → number → number := SFmul prec emax.
Definition div : number → number → number := SFdiv prec emax.

(** [a === b] on numbers: [NaN] equals nothing, [+0] equals [-0]. *)
Definition eqb : number → number → bool := SFeqb.

Definition NaN : number := S754_nan.
Definition zero : number := S754_zero false.

(** The number an integer denotes, a token count for example: the integer
    itself below [2^53], the nearest number above. *)
Definition ofZ (n : Z) : number := binary_normalize prec emax n 0 false.

(** The number a decimal literal denotes, the literal read as the fraction
    [n / d] of two integers that are numbers themselves ([0.30] is
    [decimal 30 100]): the number nearest to the fraction, which is what the
    correctly rounded division returns. *)
Definition decimal (n d : Z) : number := div (ofZ n) (ofZ d).

(** The property names every object literal inherits from
    [Object.prototype]. *)
Definition objectPrototypeNames : list string :=
  ["constructor"; "hasOwnProperty"; "isPrototypeOf"; "propertyIsEnumerable";
   "toLocaleString"; "toString"; "valueOf"; "__proto__";
   "__defineGetter__"; "__defineSetter__"; "__lookupGetter__"; "__lookupSetter__"].

(** What [literal[name]] evaluates to on an object literal with the own
    properties [own]: an own value, a member inherited from
    [Object.prototype] (a function, or the prototype itself for [__proto__]),
    or [undefined]. *)
Inductive Property (A : Type) :=
  | Own (a : A)
  | Inherited
  | Undefined.
Arguments Own {A} a.
Arguments Inherited {A}.
Arguments Undefined {A}.

Definition getProperty {A : Type} (own : gmap string A) (name : string) : Property A :=
  match own !! name with
  | Some a => Own a
  | None => if bool_decide (name ∈ objectPrototypeNames) then Inherited else Undefined
  end.

(** [a || b]: objects and functions are truthy, [undefined] is not. *)
Definition orProperty {A : Type} (a b : Property A) : Property A :=
  match a with
  | Undefined => b
  | _ => a
  end.

(** [value.field] as an operand of a product: the members of
    [Object.prototype] have none of the price fields, and [undefined] in a
    product is [NaN]. *)
Definition field {A : Type} (f : A → number) (value : Property A) : number :=
  match value with
  | Own a => f a
  | _ => NaN
  end.

(** *** The price table of the scenario views ([Scenarios.tsx]) *)

Record Pricing := mkPricing {
  input_small : number;
  input_large : number;
  output_small : number;
  output_large : number
}.

Definition PRICING_PRO : Pricing :=
  {| input_small := decimal 125 100; input_large := decimal 250 100;
     output_small := decimal 1000 100; output_large := decimal 1500 100 |}.

Definition PRICING_FLASH : Pricing :=
  {| input_small := decimal 30 100; input_large := decimal 30 100;
     output_small := decimal 250 100; output_large := decimal 250 100 |}.

Definition MODEL_PRICING : gmap string Pricing :=
  <["gemini-2.5-pro" := PRICING_PRO]> (<["gemini-2.5-flash" := PRICING_FLASH]> ∅).

Definition calculateCost (inputTokens outputTokens : Z) (modelName : string) : number :=
  if falsy inputTokens || falsy outputTokens then zero
  else
    let pricing := orProperty (getProperty MODEL_PRICING modelName)
                              (getProperty MODEL_PRICING "gemini-2.5-pro") in
    let inputCost := mul (div (ofZ inputTokens) (ofZ 1000000)) (field input_small pricing) in
    let outputCost := mul (div (ofZ outputTokens) (ofZ 1000000)) (field output_small pricing) in
    add inputCost outputCost.

Definition calculateModelResultCost
    (result : option ModelExecutionResult) (modelName : string) : number :=
  if falsyOpt (result ≫= input_tokens) || falsyOpt (result ≫= output_tokens) then zero
  else calculateCost (default 0 (result ≫= input_tokens))
                     (default 0 (result ≫= output_tokens)) modelName.

(** *** The price table of the dashboard ([Dashboard.tsx]) *)

Module Dashboard.

Record Pricing := mkPricing {
  input : number;
  output : number
}.

Definition PRICING_PRO : Pricing :=
  {| input := decimal 125 100; output := decimal 1000 100 |}.

Definition PRICING_FLASH : Pricing :=
  {| input := decimal 15 100; output := decimal 60 100 |}.

Definition MODEL_PRICING : gmap string Pricing :=
  <["gemini-2.5-pro" := PRICING_PRO]> (<["gemini-2.5-flash" := PRICING_FLASH]> ∅).

(** The dashboard's [calculateCost] has no guard on zero counts. *)
Definition calculateCost (inputTokens outputTokens : Z) (modelName : string) : number :=
  let pricing := orProperty (getProperty MODEL_PRICING modelName)
                            (getProperty MODEL_PRICING "gemini-2.5-pro") in
  let inputCost := mul (div (ofZ inputTokens) (ofZ 1000000)) (field input pricing) in
  let outputCost := mul (div (ofZ outputTokens) (ofZ 1000000)) (field output pricing) in
  add inputCost outputCost.

End Dashboard.

(** The numbers a cost may be: [+0], a positive number or [+Infinity];
    neither negative nor [NaN]. *)
Definition nonnegative (x : number) : Prop :=
  match x with
  | S754_zero false | S754_infinity false | S754_finite false _ _ => True
  | _ => False
  end.

End IEEE.
(** ** JavaScript arrays *)

(** [Array.prototype.sort] with a comparator: a stable sort, the first
    argument going first when the comparator is negative. For a comparator
    that is a total preorder its result is the one of stable insertion. *)
Section Sort.
Context {A : Type} (cmp : A → A → Z).

Fixpoint insertSorted (x : A) (l : list A) : list A :=
  match l with
  | [] => [x]
  | y :: l' => if cmp x y <=? 0 then x :: y :: l' else y :: insertSorted x l'
  end.

Definition sortBy (l : list A) : list A := foldr insertSorted [] l.

End Sort.

(** The destructuring swap [[a[i], a[j]] = [a[j], a[i]]]; both indices are
    in range wherever the client uses it. *)
Definition swapAt {A : Type} (i j : nat) (l : list A) : list A :=
  match l !! i, l !! j with
  | Some x, Some y => <[i := y]> (<[j := x]> l)
  | _, _ => l
  end.

(** ** Reordering the execution queue ([Scenarios.tsx], [handleMoveInQueue]) *)

Module ExecutionQueue.

Record QueuedScenario := mkQueuedScenario {
  scenario_id : string;
  scenario_name : string;
  queued_at : string;
  priority : Z
}.

Inductive Direction := up | down.

(** [findIndex]: the first position holding the scenario, if any. *)
Definition findIndex (scenarioId : string) (executionQueue : list QueuedScenario)
  : option nat :=
  fst <$> list_find (fun q => scenario_id q = scenarioId) executionQueue.

(** [newOrder] as [handleMoveInQueue] builds it, or [None] where it returns
    before building it: the scenario is not queued, or the move would leave
    the queue. *)
Definition newOrder (executionQueue : list QueuedScenario) (scenarioId : string)
    (direction : Direction) : option (list QueuedScenario) :=
  match findIndex scenarioId executionQueue with
  | None => None
  | Some currentIndex =>
      match direction with
      | up =>
          if (currentIndex =? 0)%nat then None
          else Some (swapAt currentIndex (currentIndex - 1) executionQueue)
      | down =>
          if (length executionQueue <=? currentIndex + 1)%nat then None
          else Some (swapAt currentIndex (currentIndex + 1) executionQueue)
      end
  end.

(** The id list [handleMoveInQueue] sends to [scenarioAPI.reorderQueue]. *)
Definition handleMoveInQueue (executionQueue : list QueuedScenario)
    (scenarioId : string) (direction : Direction) : option (list string) :=
  fmap (M := list) scenario_id <$> newOrder executionQueue scenarioId direction.

End ExecutionQueue.

(** [Array.prototype.filter] with a callback that reads the index. *)
Fixpoint filterWithIndex {A : Type} (f : A → nat → bool) (i : nat) (l : list A)
  : list A :=
  match l with
  | [] => []
  | x :: l' =>
      if f x i then x :: filterWithIndex f (S i) l' else filterWithIndex f (S i) l'
  end.

(** ** Products and steps ([product-types.ts], [scenario-types.ts]) *)

Module Catalog.

Record Product := mkProduct {
  product_id : string;
  title : string;
  units_relation : Q;
  main_unit_description : string;
  secondary_unit_description : string
}.

End Catalog.

Module Steps.

(** [ScenarioStep]; the legacy single-model result fields and the time
    stamps are read by none of the functions below and are left out. The
    client guards every read of [ground_truth_cart] and of
    [voice_file_path] against a missing value. *)
Record ScenarioStep := mkScenarioStep {
  step_id : string;
  step_number : Z;
  voice_file_path : option string;
  voice_text : option string;
  ground_truth_cart : option (list CartItem);
  model_results : gmap string ModelExecutionResult
}.

End Steps.

(** [getProductName] of the detail view: the catalog title when the product
    is known, else a fallback name that is neither empty nor the placeholder,
    else the placeholder. *)
Definition getProductName (products : list Catalog.Product) (productId : string)
    (fallbackName : option string) : string :=
  match find (fun p => bool_decide (Catalog.product_id p = productId)) products with
  | Some product => Catalog.title product
  | None =>
      match fallbackName with
      | Some f =>
          if negb (bool_decide (f = "")) &&
             negb (bool_decide (f = "Product " +:+ productId))
          then f else "Product " +:+ productId
      | None => "Product " +:+ productId
      end
  end.

(** ** The ground-truth cart editor of the detail view ([ScenarioDetail.tsx]) *)

Module CartEditor.

(** [Partial<UpdateStepRequest>]: every field may be absent. *)
Record UpdateStepRequest := mkUpdateStepRequest {
  voice_text : option string;
  ai_response : option string;
  ground_truth_cart : option (list CartItem);
  predicted_cart : option (list CartItem)
}.

Definition noUpdate : UpdateStepRequest := mkUpdateStepRequest None None None None.

(** A field of [UpdateStepRequest] together with the value written to it. *)
Inductive FieldValue :=
  | VoiceText (value : string)
  | AiResponse (value : string)
  | GroundTruthCart (value : list CartItem)
  | PredictedCart (value : list CartItem).

Definition setField (u : UpdateStepRequest) (fv : FieldValue) : UpdateStepRequest :=
  match fv with
  | VoiceText v => mkUpdateStepRequest (Some v) (ai_response u) (ground_truth_cart u) (predicted_cart u)
  | AiResponse v => mkUpdateStepRequest (voice_text u) (Some v) (ground_truth_cart u) (predicted_cart u)
  | GroundTruthCart v => mkUpdateStepRequest (voice_text u) (ai_response u) (Some v) (predicted_cart u)
  | PredictedCart v => mkUpdateStepRequest (voice_text u) (ai_response u) (ground_truth_cart u) (Some v)
  end.

(** The editor's state: the step being edited, the unsaved edits per step id
    and the free-text carts per step id. *)
Record State := mkState {
  editingStep : option string;
  stepData : gmap string UpdateStepRequest;
  cartTextData : gmap string string
}.

(** [updateStepField]: spreads the previous edits of the step, if any, and
    overwrites one field. *)
Definition updateStepField (stepId : string) (fv : FieldValue) (st : State) : State :=
  mkState (editingStep st)
          (<[stepId := setField (default noUpdate (stepData st !! stepId)) fv]> (stepData st))
          (cartTextData st).

(** [stepData[stepId]?.ground_truth_cart]. *)
Definition editedCart (stepId : string) (st : State) : option (list CartItem) :=
  stepData st !! stepId ≫= ground_truth_cart.

(** [stepData[stepId]?.ground_truth_cart || []]: an array, even an empty
    one, is truthy. *)
Definition currentCart (stepId : string) (st : State) : list CartItem :=
  default [] (editedCart stepId st).

Definition getEditingCart (step : Steps.ScenarioStep) (st : State) : list CartItem :=
  match editedCart (Steps.step_id step) st with
  | Some cart => cart
  | None => default [] (Steps.ground_truth_cart step)
  end.

(** The click on the pencil: the step becomes the one edited, and its saved
    cart seeds the edits unless an edited cart is already there. *)
Definition startEditing (step : Steps.ScenarioStep) (st : State) : State :=
  let st1 := mkState (Some (Steps.step_id step)) (stepData st) (cartTextData st) in
  match editedCart (Steps.step_id step) st with
  | Some _ => st1
  | None =>
      updateStepField (Steps.step_id step)
        (GroundTruthCart (default [] (Steps.ground_truth_cart step))) st1
  end.

(** The cancel button: the edits of the step are dropped. *)
Definition cancelEditing (stepId : string) (st : State) : State :=
  mkState None (delete stepId (stepData st)) (delete stepId (cartTextData st)).

Definition newItem : CartItem := mkCartItem "" "" 1 "KOYTA".

Definition addCartItem (stepId : string) (st : State) : State :=
  updateStepField stepId (GroundTruthCart (currentCart stepId st ++ [newItem])) st.

Definition removeCartItem (stepId : string) (index : nat) (st : State) : State :=
  updateStepField stepId
    (GroundTruthCart
       (filterWithIndex (fun _ i => negb (i =? index)%nat) 0 (currentCart stepId st)))
    st.

(** The field of a cart item [updateCartItem] is asked to write, with the
    value. *)
Inductive CartEdit :=
  | EditProductId (value : string)
  | EditProductName (value : string)
  | EditQuantity (value : Z)
  | EditUnit (value : string).

Definition applyEdit (e : CartEdit) (item : CartItem) : CartItem :=
  match e with
  | EditProductId v => mkCartItem v (product_name item) (quantity item) (unit item)
  | EditProductName v => mkCartItem (product_id item) v (quantity item) (unit item)
  | EditQuantity v => mkCartItem (product_id item) (product_name item) v (unit item)
  | EditUnit v => mkCartItem (product_id item) (product_name item) (quantity item) v
  end.

(** [updatedCart[index] = {...updatedCart[index], ...}] for an index of the
    cart. Past the end JavaScript grows the array with an item that has only
    the written fields, which is no [CartItem]; the editor takes its indices
    from the cart it renders, and [None] stands for the rest. *)
Definition assignAt (index : nat) (f : CartItem → CartItem) (cart : list CartItem)
  : option (list CartItem) :=
  (fun item => <[index := f item]> cart) <$> cart !! index.

Definition updateCartItem (products : list Catalog.Product) (stepId : string)
    (index : nat) (e : CartEdit) (st : State) : option State :=
  let currentCart := currentCart stepId st in
  let updatedCart :=
    match e with
    | EditProductId value =>
        if negb (bool_decide (value = "")) then
          match find (fun p => bool_decide (Catalog.product_id p = value)) products with
          | Some product =>
              assignAt index
                (fun item => mkCartItem value (Catalog.title product)
                                        (quantity item) (unit item))
                currentCart
          | None => Some currentCart
          end
        else assignAt index (applyEdit e) currentCart
    | _ => assignAt index (applyEdit e) currentCart
    end in
  (fun cart => updateStepField stepId (GroundTruthCart cart) st) <$> updatedCart.

(** [parseInt(e.target.value) || 1], given what [parseInt] returned ([None]
    for [NaN]): the quantity the number input writes. *)
Definition quantityOfInput (parsed : option Z) : Z :=
  match parsed with
  | Some n => if n =? 0 then 1 else n
  | None => 1
  end.

(** [cloneCartFromPreviousStep]: the edits after the click, and the item
    count and step number its toast reports when a cart was cloned. *)
Definition previousStepOf (steps : list Steps.ScenarioStep)
    (currentStep : Steps.ScenarioStep) : option Steps.ScenarioStep :=
  head (sortBy (fun a b => Steps.step_number b - Steps.step_number a)
               (List.filter
                  (fun s => Steps.step_number s <? Steps.step_number currentStep)
                  steps)).

Definition cloneCartFromPreviousStep (steps : list Steps.ScenarioStep)
    (currentStep : Steps.ScenarioStep) (st : State) : State * option (nat * Z) :=
  match previousStepOf steps currentStep with
  | Some previousStep =>
      match Steps.ground_truth_cart previousStep with
      | Some cart =>
          let clonedCart := cart in
          (updateStepField (Steps.step_id currentStep) (GroundTruthCart clonedCart) st,
           Some (length clonedCart, Steps.step_number previousStep))
      | None => (st, None)
      end
  | None => (st, None)
  end.

End CartEditor.

(** ** Changing the number of steps ([Scenarios.tsx], [handleEditScenario]) *)

(** The step requests [handleEditScenario] awaits one after the other. *)
Inductive StepRequest :=
  | AddStep (stepNumber : Z)
  | DeleteStep (stepId : string).

(** The loop [for (i = currentStepCount + 1; i <= newStepCount; i++)] when the
    count grows, the [stepsToRemove] (highest step numbers first, as many as
    the count shrinks by) when it shrinks. [slice(0, n)] keeps at most [n]
    elements. *)
Definition stepsToRemove (steps : list Steps.ScenarioStep) (newStepCount : Z)
  : list Steps.ScenarioStep :=
  take (Z.to_nat (Z.of_nat (length steps) - newStepCount))
       (sortBy (fun a b => Steps.step_number b - Steps.step_number a) steps).

Definition stepCountRequests (steps : list Steps.ScenarioStep) (editNumSteps : Z)
  : list StepRequest :=
  let currentStepCount := Z.of_nat (length steps) in
  let newStepCount := editNumSteps in
  if currentStepCount <? newStepCount then
    AddStep <$> seqZ (currentStepCount + 1) (newStepCount - currentStepCount)
  else if newStepCount <? currentStepCount then
    (fun s => DeleteStep (Steps.step_id s)) <$> stepsToRemove steps newStepCount
  else [].

(** Everything [handleEditScenario] awaits inside its [try] before the
    reload: the update of the name and description, then the step requests. *)
Inductive EditRequest :=
  | UpdateScenario (name description : string)
  | EditStep (request : StepRequest).

Definition editPlan (editName editDescription : string)
    (steps : list Steps.ScenarioStep) (editNumSteps : Z) : list EditRequest :=
  UpdateScenario editName editDescription
    :: (EditStep <$> stepCountRequests steps editNumSteps).

(** The awaits of the [try] block, one after the other: [throws k] tells
    whether the [k]-th awaited request rejects, and with which
    [err.response?.data?.detail]; the first rejection ends the block. Returns
    the requests sent and the rejection, if any. *)
Fixpoint awaitEach (throws : nat → option (option string)) (k : nat)
    (plan : list EditRequest) : list EditRequest * option (option string) :=
  match plan with
  | [] => ([], None)
  | request :: rest =>
      match throws k with
      | Some detail => ([request], Some detail)
      | None =>
          let '(sent, rejection) := awaitEach throws (S k) rest in
          (request :: sent, rejection)
      end
  end.

(** What [handleEditScenario] has done when it returns: the requests it
    sent, whether it reloaded the scenarios and closed the dialog, and its
    toast. *)
Record EditResult := mkEditResult {
  sent : list EditRequest;
  reloaded : bool;
  dialogClosed : bool;
  editToast : ToastKind * string
}.

(** [handleEditScenario], on the steps of [editingScenario] ([None] when no
    scenario is being edited: the handler returns at once). [loadScenarios]
    catches its own errors and never rejects. *)
Definition handleEditScenario (editingScenario : option (list Steps.ScenarioStep))
    (editName editDescription : string) (editNumSteps : Z)
    (throws : nat → option (option string)) : option EditResult :=
  match editingScenario with
  | None => None
  | Some steps =>
      match awaitEach throws 0 (editPlan editName editDescription steps editNumSteps) with
      | (requests, None) =>
          Some (mkEditResult requests true true
                  (toast_success, "Scenario updated successfully"))
      | (requests, Some detail) =>
          Some (mkEditResult requests false false
                  (toast_error, orElse detail "Failed to update scenario"))
      end
  end.

(** ** Batch audio upload ([ScenarioDetail.tsx], [handleBatchAudioUpload]) *)

Module BatchUpload.

(** The fields of a [File] the upload reads; [type] is its MIME type. *)
Record File := mkFile {
  name : string;
  type : string
}.


Section Upload.
(** [String.prototype.localeCompare] with the [numeric] option, and the
    upload endpoint: [true] when the request for a step and a file
    succeeds. *)
Variable localeCompare : string → string → Z.
Variable uploadVoiceFile : string → File → bool.

Definition audioFiles (files : list File) : list File :=
  sortBy (fun a b => localeCompare (name a) (name b))
         (List.filter (fun f => String.prefix "audio/" (type f)) files).

(** [!s.voice_file_path]: missing or empty. *)
Definition hasNoAudio (s : Steps.ScenarioStep) : bool :=
  match Steps.voice_file_path s with
  | Some p => bool_decide (p = "")
  | None => true
  end.

Definition stepsWithoutAudio (steps : list Steps.ScenarioStep)
  : list Steps.ScenarioStep :=
  sortBy (fun a b => Steps.step_number a - Steps.step_number b)
         (List.filter hasNoAudio steps).

(** The uploads attempted, in order: the [i]-th audio file goes to the
    [i]-th step without audio, for [i] below [uploadCount]. *)
Definition uploads (files : list File) (steps : list Steps.ScenarioStep)
  : list (Steps.ScenarioStep * File) :=
  let uploadCount := Nat.min (length (audioFiles files))
                             (length (stepsWithoutAudio steps)) in
  take uploadCount (zip (stepsWithoutAudio steps) (audioFiles files)).


End Upload.

End BatchUpload.

(** ** The cost tab of the detail view ([ScenarioDetail.tsx]) *)






(** ** Loading the scenario list ([Scenarios.tsx], [checkAllExecutionStatuses]) *)

(** One turn of the loop: a scenario that already has an interval is
    skipped; otherwise its status is fetched ([None]: the request threw) and
    only a running scenario gets its status stored and a poller started, under
    the next interval handle. *)
Definition checkExecutionStatusOf (answer : string → option ExecutionStatusInfo)
    (acc : ScenarioList.State * Z) (scenario : ScenarioList.Scenario)
  : ScenarioList.State * Z :=
  let st := acc.1 in
  let timer := acc.2 in
  let scenarioId := ScenarioList.scenario_id scenario in
  match ScenarioList.pollingIntervals st !! scenarioId with
  | Some _ => acc
  | None =>
      match answer scenarioId with
      | Some response =>
          if bool_decide (status response = "running") then
            (ScenarioList.startPolling scenarioId timer
               (ScenarioList.mkState (ScenarioList.scenarios st)
                  (<[scenarioId := response]> (ScenarioList.executionStatuses st))
                  (ScenarioList.pollingIntervals st) (ScenarioList.completedScenarios st)
                  (ScenarioList.toasts st) (ScenarioList.timeouts st)
                  (ScenarioList.refreshes st)),
             timer + 1)
          else acc
      | None => acc
      end
  end.

Definition checkAllExecutionStatuses (answer : string → option ExecutionStatusInfo)
    (scenarioList : list ScenarioList.Scenario) (st : ScenarioList.State) (timer : Z)
  : ScenarioList.State * Z :=
  foldl (checkExecutionStatusOf answer) (st, timer) scenarioList.

(** What the whole loop keeps, whatever the scenarios and the answers. *)
Definition loadInvariant (answer : string → option ExecutionStatusInfo)
    (scenarioList : list ScenarioList.Scenario) (st st' : ScenarioList.State) : Prop :=
  (ScenarioList.scenarios st' = ScenarioList.scenarios st ∧
   ScenarioList.completedScenarios st' = ScenarioList.completedScenarios st ∧
   ScenarioList.toasts st' = ScenarioList.toasts st ∧
   ScenarioList.timeouts st' = ScenarioList.timeouts st ∧
   ScenarioList.refreshes st' = ScenarioList.refreshes st) ∧
  (∀ sid iv, ScenarioList.pollingIntervals st !! sid = Some iv →
             ScenarioList.pollingIntervals st' !! sid = Some iv) ∧
  (∀ sid, ScenarioList.pollingIntervals st !! sid = None →
          is_Some (ScenarioList.pollingIntervals st' !! sid) →
          sid ∈ ScenarioList.scenario_id <$> scenarioList ∧
          ∃ r, answer sid = Some r ∧ status r = "running" ∧
               ScenarioList.executionStatuses st' !! sid = Some r) ∧
  (∀ sid, is_Some (ScenarioList.pollingIntervals st !! sid) ∨
          ScenarioList.pollingIntervals st' !! sid = None →
          ScenarioList.executionStatuses st' !! sid
            = ScenarioList.executionStatuses st !! sid) ∧
  (∀ sid r, sid ∈ ScenarioList.scenario_id <$> scenarioList → answer sid = Some r →
            status r = "running" →
            is_Some (ScenarioList.pollingIntervals st' !! sid)).

(** ** Saving a step ([ScenarioDetail.tsx], [handleStepUpdate]) *)

(** With [responseStep] the step the update endpoint answered: the steps
    handed to [onUpdate] and the editor state, or [None] when the step has no
    edits and the function returns before any request. *)
Definition handleStepUpdate (stepId : string) (responseStep : Steps.ScenarioStep)
    (steps : list Steps.ScenarioStep) (st : CartEditor.State)
  : option (list Steps.ScenarioStep * CartEditor.State) :=
  match CartEditor.stepData st !! stepId with
  | None => None
  | Some updates =>
      Some ((fun s => if bool_decide (Steps.step_id s = stepId) then responseStep else s)
              <$> steps,
            CartEditor.mkState None (delete stepId (CartEditor.stepData st))
                               (delete stepId (CartEditor.cartTextData st)))
  end.

(** ** The product count of a scenario card ([Scenarios.tsx]) *)

(** The body of the inner [forEach]: an item with a non-empty product id
    adds it to the set. *)
Definition addProductId (ids : JSSet.t) (item : CartItem) : JSSet.t :=
  if negb (bool_decide (product_id item = "")) then JSSet.add (product_id item) ids
  else ids.

Definition uniqueProductIds (steps : list Steps.ScenarioStep) : JSSet.t :=
  foldl (fun ids step => foldl addProductId ids (default [] (Steps.ground_truth_cart step)))
        JSSet.empty steps.

Definition uniqueProductCount (steps : list Steps.ScenarioStep) : nat :=
  JSSet.size (uniqueProductIds steps).

(** All ground-truth items of a scenario, step after step. *)
Definition allGroundTruthItems (steps : list Steps.ScenarioStep) : list CartItem :=
  concat ((fun s => default [] (Steps.ground_truth_cart s)) <$> steps).


(** ** The dashboard ([Dashboard.tsx]) *)

Module Dashboard.

(** [ModelSummary] ([scenario-types.ts]). *)
Record ModelSummary := mkModelSummary {
  total_precision : Q;
  total_recall : Q;
  total_f1 : Q;
  exact_matches : Z;
  total_steps : Z;
  total_input_tokens : Z;
  total_output_tokens : Z;
  total_latency_ms : Z;
  total_cost : Q;
  avg_precision : Q;
  avg_recall : Q;
  avg_f1 : Q;
  exact_match_rate : Q
}.

Record AggregatedModelMetrics := mkAggregated {
  agg_model_name : string;
  agg_total_scenarios : Z;
  agg_total_steps : Z;
  agg_avg_precision : Q;
  agg_avg_recall : Q;
  agg_avg_f1 : Q;
  agg_exact_match_rate : Q;
  agg_total_exact_matches : Z;
  agg_total_input_tokens : Z;
  agg_total_output_tokens : Z;
  agg_total_latency_ms : Z;
  agg_avg_latency_ms : Q;
  agg_total_cost : IEEE.number;
  agg_avg_cost_per_step : IEEE.number
}.

Record DashboardMetrics := mkDashboardMetrics {
  total_scenarios : Z;
  total_executed_scenarios : Z;
  dashboard_total_steps : Z;
  models : gmap string AggregatedModelMetrics
}.

(** The record a model starts from when its first summary arrives. *)
Definition blank (modelName : string) : AggregatedModelMetrics :=
  mkAggregated modelName 0 0 0 0 0 0 0 0 0 0 0 IEEE.zero IEEE.zero.

(** The body of the loop over [Object.entries(comparison.summary)], on the
    record of the model; the cost is the dashboard's [calculateCost], summed
    in the code's own arithmetic. *)
Definition accumulate (modelName : string) (m : AggregatedModelMetrics)
    (summary : ModelSummary) : AggregatedModelMetrics :=
  let weight := inject_Z (total_steps summary) in
  mkAggregated (agg_model_name m)
    (agg_total_scenarios m + 1)
    (agg_total_steps m + total_steps summary)
    (agg_avg_precision m + avg_precision summary * weight)%Q
    (agg_avg_recall m + avg_recall summary * weight)%Q
    (agg_avg_f1 m + avg_f1 summary * weight)%Q
    (agg_exact_match_rate m)
    (agg_total_exact_matches m + exact_matches summary)
    (agg_total_input_tokens m + total_input_tokens summary)
    (agg_total_output_tokens m + total_output_tokens summary)
    (agg_total_latency_ms m + total_latency_ms summary)
    (agg_avg_latency_ms m)
    (IEEE.add (agg_total_cost m)
       (IEEE.Dashboard.calculateCost (total_input_tokens summary)
          (total_output_tokens summary) modelName))
    (agg_avg_cost_per_step m).

(** [models[modelName]] on the object literal [models]: under a name
    inherited from [Object.prototype] the lookup finds the inherited member,
    no record is created and the sums are written to that member, so the
    records of [models] stay as they are. *)
Definition addSummary (ms : gmap string AggregatedModelMetrics)
    (entry : string * ModelSummary) : gmap string AggregatedModelMetrics :=
  let modelName := entry.1 in
  if bool_decide (modelName ∈ IEEE.objectPrototypeNames) then ms
  else
    <[modelName := accumulate modelName (default (blank modelName) (ms !! modelName))
                              entry.2]> ms.

(** A scenario as the dashboard reads it: its steps, and what
    [getComparison] answered for it ([None]: the request threw), the summary
    given as its entries. *)
Record ScenarioData := mkScenarioData {
  steps : list Steps.ScenarioStep;
  comparison : option (list (string * ModelSummary))
}.

Definition hasResults (scenario : ScenarioData) : bool :=
  existsb (fun step => negb (bool_decide (Steps.model_results step = ∅)))
          (steps scenario).

(** One turn of the loop over the scenarios. *)
Definition addScenario (acc : DashboardMetrics) (scenario : ScenarioData)
  : DashboardMetrics :=
  if hasResults scenario then
    mkDashboardMetrics (total_scenarios acc)
      (total_executed_scenarios acc + 1)
      (dashboard_total_steps acc + Z.of_nat (length (steps scenario)))
      (match comparison scenario with
       | Some entries => foldl addSummary (models acc) entries
       | None => models acc
       end)
  else acc.

(** The final averages: only a model with a positive step count is divided. *)
Definition finish (m : AggregatedModelMetrics) : AggregatedModelMetrics :=
  if 0 <? agg_total_steps m then
    let n := inject_Z (agg_total_steps m) in
    mkAggregated (agg_model_name m) (agg_total_scenarios m) (agg_total_steps m)
      (agg_avg_precision m / n)%Q (agg_avg_recall m / n)%Q (agg_avg_f1 m / n)%Q
      (inject_Z (agg_total_exact_matches m) / n)%Q
      (agg_total_exact_matches m) (agg_total_input_tokens m)
      (agg_total_output_tokens m) (agg_total_latency_ms m)
      (inject_Z (agg_total_latency_ms m) / n)%Q
      (agg_total_cost m) (IEEE.div (agg_total_cost m) (IEEE.ofZ (agg_total_steps m)))
  else m.

(** The metrics [loadDashboardData] publishes. *)
Definition loadDashboardData (scenarios : list ScenarioData) : DashboardMetrics :=
  let aggregated :=
    foldl addScenario
          (mkDashboardMetrics (Z.of_nat (length scenarios)) 0 0 ∅) scenarios in
  mkDashboardMetrics (total_scenarios aggregated) (total_executed_scenarios aggregated)
    (dashboard_total_steps aggregated) (finish <$> models aggregated).

(** The summaries that reach a model: those under its name in the
    comparisons fetched for the executed scenarios, in order. *)
Definition contributions (modelName : string) (scenarios : list ScenarioData)
  : list ModelSummary :=
  concat
    ((fun scenario =>
        if hasResults scenario then
          (List.filter (fun e => bool_decide (e.1 = modelName))
                       (default [] (comparison scenario))).*2
        else [])
       <$> scenarios).

(** The step-weighted sum of a per-scenario average. *)
Definition weightedSum (avg : ModelSummary → Q) (summaries : list ModelSummary) : Q :=
  foldl (fun acc s => acc + avg s * inject_Z (total_steps s))%Q 0%Q summaries.

Definition stepsOf (summaries : list ModelSummary) : Z :=
  foldl (fun acc s => acc + total_steps s) 0 summaries.

End Dashboard.

(** The record of a model after the summaries [summaries] have reached it,
    starting from the record [o] it had, if any. *)
Definition accumulated (modelName : string)
    (o : option Dashboard.AggregatedModelMetrics)
    (summaries : list Dashboard.ModelSummary)
  : option Dashboard.AggregatedModelMetrics :=
  foldl (fun o s => Some (Dashboard.accumulate modelName
                            (default (Dashboard.blank modelName) o) s))
        o summaries.


(** ** The session and its inactivity timer ([App]) *)

Module App.

Inductive Page := dashboard | scenarios | products | settings | migration.

Definition INACTIVITY_TIMEOUT : Z := 30 * 60 * 1000.

(** The component's state, [inactivityTimerRef], and the part of the
    environment the component acts upon: whether the activity listeners of the
    effect are attached, the timeouts that are set and have neither fired nor
    been cleared (handle and due time), the next handle [setTimeout] returns,
    and the toasts raised. *)
Record State := mkState {
  isAuthenticated : bool;
  userEmail : string;
  currentPage : Page;
  inactivityTimerRef : option nat;
  listening : bool;
  timers : list (nat * Z);
  nextTimer : nat;
  toasts : list string
}.

Definition initial : State := mkState false "" dashboard None false [] 0 [].

Definition clearTimeout (handle : nat) (ts : list (nat * Z)) : list (nat * Z) :=
  List.filter (fun t => negb (t.1 =? handle)%nat) ts.

(** [if (inactivityTimerRef.current) clearTimeout(inactivityTimerRef.current)]. *)
Definition clearCurrent (st : State) : list (nat * Z) :=
  match inactivityTimerRef st with
  | Some handle => clearTimeout handle (timers st)
  | None => timers st
  end.

Definition handleLogout (st : State) : State :=
  mkState false "" dashboard None (listening st) (clearCurrent st) (nextTimer st)
          (toasts st).

Definition resetInactivityTimer (now : Z) (st : State) : State :=
  mkState (isAuthenticated st) (userEmail st) (currentPage st)
          (Some (nextTimer st)) (listening st)
          (clearCurrent st ++ [(nextTimer st, now + INACTIVITY_TIMEOUT)])
          (S (nextTimer st)) (toasts st).

Definition handleLogin (email : string) (st : State) : State :=
  mkState true email (currentPage st) (inactivityTimerRef st) (listening st)
          (timers st) (nextTimer st) (toasts st).

(** The effect on [isAuthenticated]: its body, and the cleanup it returns
    when it did not return early. *)
Definition effectBody (now : Z) (st : State) : State :=
  if isAuthenticated st then
    let st1 := resetInactivityTimer now st in
    mkState (isAuthenticated st1) (userEmail st1) (currentPage st1)
            (inactivityTimerRef st1) true (timers st1) (nextTimer st1) (toasts st1)
  else st.

Definition effectCleanup (st : State) : State :=
  mkState (isAuthenticated st) (userEmail st) (currentPage st)
          (inactivityTimerRef st) false (clearCurrent st) (nextTimer st) (toasts st).

(** The render after a handler: the effect depends on [isAuthenticated]
    alone ([resetInactivityTimer] and [handleLogout] are stable callbacks), so
    it runs again exactly when that value differs from the one of the previous
    render, after the cleanup of the previous run if that run installed one. *)
Definition rerender (before : bool) (now : Z) (st : State) : State :=
  if Bool.eqb before (isAuthenticated st) then st
  else effectBody now (if before then effectCleanup st else st).

Inductive Event :=
  | Login (email : string)
  | Activity
  | Navigate (page : Page)
  | LogoutClick
  | TimerFires (handle : nat).

(** The body of the timeout callback, the fired timeout being gone. *)
Definition onTimeout (handle : nat) (st : State) : State :=
  handleLogout
    (mkState (isAuthenticated st) (userEmail st) (currentPage st)
             (inactivityTimerRef st) (listening st)
             (clearTimeout handle (timers st)) (nextTimer st)
             (toasts st ++ ["Session expired due to inactivity"])).

(** One event at time [now], with the render that follows it. A control acts
    only while it is rendered (the login form when signed out, the sidebar
    when signed in), a listener only while it is attached, and a timeout fires
    only when it is set and due. *)
Definition step (now : Z) (st : State) (e : Event) : State :=
  match e with
  | Login email =>
      if isAuthenticated st then st
      else rerender (isAuthenticated st) now (handleLogin email st)
  | Activity =>
      if listening st then resetInactivityTimer now st else st
  | Navigate page =>
      if isAuthenticated st then
        mkState (isAuthenticated st) (userEmail st) page (inactivityTimerRef st)
                (listening st) (timers st) (nextTimer st) (toasts st)
      else st
  | LogoutClick =>
      if isAuthenticated st then rerender (isAuthenticated st) now (handleLogout st)
      else st
  | TimerFires handle =>
      match find (fun t => (t.1 =? handle)%nat) (timers st) with
      | Some t =>
          if t.2 <=? now then rerender (isAuthenticated st) now (onTimeout handle st)
          else st
      | None => st
      end
  end.

Definition run (st : State) (events : list (Z * Event)) : State :=
  foldl (fun s e => step e.1 s e.2) st events.

End App.

(** What every reachable state of the session satisfies. *)
Definition sessionInvariant (st : App.State) : Prop :=
  App.listening st = App.isAuthenticated st ∧
  if App.isAuthenticated st then
    ∃ handle due, App.inactivityTimerRef st = Some handle ∧
                  App.timers st = [(handle, due)] ∧
                  (handle < App.nextTimer st)%nat
  else
    App.timers st = [] ∧ App.inactivityTimerRef st = None ∧
    App.userEmail st = "" ∧ App.currentPage st = App.dashboard.

(** ** The chat view ([Chat.tsx]) *)

Module Chat.

Record ChatMessage := mkChatMessage {
  role : string;
  content : string;
  timestamp : string
}.

(** The component's state, and the messages posted to the server whose
    answer has not arrived yet. *)
Record State := mkState {
  messages : list ChatMessage;
  input : string;
  loading : bool;
  error : option string;
  requests : list string
}.

Definition initial : State := mkState [] "" false None [].

(** What [chatAPI.sendMessage] resolves to, or the [detail] of the error it
    throws, if any. *)
Inductive Answer :=
  | Replied (response timestamp : string)
  | Failed (detail : option string).

Inductive Event :=
  | Typed (value : string)
  | Send (now : string)
  | Answered (answer : Answer)
  | Cleared (ok : bool)
  | HealthCheckFailed.

Section Trim.

(** [String.prototype.trim]. *)
Variable trim : string → string.

(** [handleSend] up to its [await], [now] being [new Date().toISOString()]. *)
Definition handleSend (now : string) (st : State) : State :=
  if bool_decide (trim (input st) = "") || loading st then st
  else
    mkState (messages st ++ [mkChatMessage "user" (input st) now]) "" true None
            (requests st ++ [input st]).

(** [handleSend] after its [await], with the [finally] block. *)
Definition onAnswer (answer : Answer) (st : State) : State :=
  match requests st with
  | [] => st
  | _ :: rest =>
      match answer with
      | Replied response timestamp =>
          mkState (messages st ++ [mkChatMessage "model" response timestamp])
                  (input st) false (error st) rest
      | Failed detail =>
          mkState (messages st) (input st) false
                  (Some (orElse detail "Failed to send message. Please try again."))
                  rest
      end
  end.

(** [handleClear] after its [await]. *)
Definition onCleared (ok : bool) (st : State) : State :=
  if ok then mkState [] (input st) (loading st) None (requests st)
  else mkState (messages st) (input st) (loading st)
               (Some "Failed to clear history") (requests st).

(** The text area is disabled while [loading]; the send button and the Enter
    key both run [handleSend]. *)
Definition step (st : State) (e : Event) : State :=
  match e with
  | Typed value =>
      if loading st then st
      else mkState (messages st) value (loading st) (error st) (requests st)
  | Send now => handleSend now st
  | Answered answer => onAnswer answer st
  | Cleared ok => onCleared ok st
  | HealthCheckFailed =>
      mkState (messages st) (input st) (loading st)
              (Some "Unable to connect to the API server") (requests st)
  end.

Definition run (st : State) (events : list Event) : State := foldl step st events.

End Trim.

End Chat.

(** What every reachable state of the chat view satisfies. *)
Definition chatInvariant (trim : string → string) (st : Chat.State) : Prop :=
  (if Chat.loading st then
     Chat.input st = "" ∧ ∃ c, Chat.requests st = [c] ∧ trim c ≠ ""
   else Chat.requests st = []) ∧
  ∀ m, m ∈ Chat.messages st →
       (Chat.role m = "user" ∧ trim (Chat.content m) ≠ "") ∨ Chat.role m = "model".
(** ** More sample data *)

Definition queued (scenarioId : string) : ExecutionQueue.QueuedScenario :=
  ExecutionQueue.mkQueuedScenario scenarioId scenarioId "2026-01-01T00:00:00" 0.

Definition sampleSummary (steps : Z) (precision : Q) : Dashboard.ModelSummary :=
  Dashboard.mkModelSummary 0 0 0 0 steps 1000 200 0 0 precision precision precision 0.

Definition executedStep : Steps.ScenarioStep :=
  Steps.mkScenarioStep "step-1" 1 None None (Some [itemA 1])
    (<["gemini-2.5-pro" := flashResult (Some 10) (Some 5)]> ∅).

Definition sampleScenarios : list Dashboard.ScenarioData :=
  [Dashboard.mkScenarioData [executedStep]
     (Some [("gemini-2.5-pro", sampleSummary 1 1)]);
   Dashboard.mkScenarioData [executedStep; executedStep; executedStep] None;
   Dashboard.mkScenarioData [executedStep; executedStep; executedStep]
     (Some [("gemini-2.5-pro", sampleSummary 3 (1 # 3))])].


Definition editorState : CartEditor.State :=
  CartEditor.mkState None (<["step-2" := CartEditor.noUpdate]> ∅) ∅.

(** ** Floating-point numbers: signs *)

Section Signs.
Import IEEE.

Lemma shr_1_nonneg (mrs : shr_record) : 0 ≤ shr_m mrs → 0 ≤ shr_m (shr_1 mrs).
Proof.
  destruct mrs as [m r s]. simpl.
  destruct m as [|p|p]; [done | | lia]. by destruct p.
Qed.

Lemma iter_shr_1_nonneg (p : positive) (mrs : shr_record) :
  0 ≤ shr_m mrs → 0 ≤ shr_m (SpecFloat.iter_pos shr_1 p mrs).
Proof.
  revert mrs. induction p as [p IH | p IH |]; intros mrs Hm; simpl.
  - by apply IH, IH, shr_1_nonneg.
  - by apply IH, IH.
  - by apply shr_1_nonneg.
Qed.

Lemma shr_fexp_nonneg (m e : Z) (l : location) :
  0 ≤ m → 0 ≤ shr_m (shr_fexp prec emax m e l).1.
Proof.
  intros Hm. unfold shr_fexp, shr.
  assert (H0 : 0 ≤ shr_m (shr_record_of_loc m l)) by (by destruct l as [|[]]).
  destruct (fexp prec emax (Zdigits2 m + e) - e) as [|p|p]; simpl; [done | | done].
  by apply iter_shr_1_nonneg.
Qed.

Lemma round_nearest_even_nonneg (m : Z) (l : location) :
  0 ≤ m → 0 ≤ round_nearest_even m l.
Proof.
  intros Hm. destruct l as [|[]]; simpl; try lia.
  destruct (Z.even m); lia.
Qed.

(** Rounding a non-negative magnitude without a sign gives [+0], a positive
    number or [+Infinity]. *)
Lemma binary_round_aux_nonnegative (m e : Z) (l : location) :
  0 ≤ m → nonnegative (binary_round_aux prec emax false m e l).
Proof.
  intros Hm. unfold binary_round_aux.
  pose proof (shr_fexp_nonneg m e l Hm) as H1.
  destruct (shr_fexp prec emax m e l) as [mrs e']. simpl in H1.
  pose proof (shr_fexp_nonneg _ e' loc_Exact
                (round_nearest_even_nonneg _ (loc_of_shr_record mrs) H1)) as H2.
  destruct (shr_fexp prec emax _ e' loc_Exact) as [mrs' e'']. simpl in H2.
  destruct (shr_m mrs') as [|p|p]; simpl; [done | | lia].
  by destruct (e'' <=? emax - prec).
Qed.

Lemma binary_round_nonnegative (m : positive) (e : Z) :
  nonnegative (binary_round prec emax false m e).
Proof.
  unfold binary_round. destruct (shl_align m e _) as [mz ez].
  by apply binary_round_aux_nonnegative.
Qed.

Lemma ofZ_nonnegative (n : Z) : 0 ≤ n → nonnegative (ofZ n).
Proof.
  intros Hn. unfold ofZ, binary_normalize. destruct n as [|p|p]; [done| |lia].
  apply binary_round_nonnegative.
Qed.

Lemma div_nonnegative (x : number) (m : positive) (e : Z) :
  nonnegative x → nonnegative (div x (S754_finite false m e)).
Proof.
  destruct x as [[] | [] | | [] mx ex]; simpl; try done. intros _.
  unfold SFdiv_core_binary.
  set (e' := Z.min _ _). set (m' := match ex - e - e' with
                                    | 0 => Z.pos mx
                                    | Z.pos _ => Z.shiftl (Z.pos mx) (ex - e - e')
                                    | Z.neg _ => 0
                                    end).
  assert (Hm' : 0 ≤ m').
  { subst m'. destruct (ex - e - e') as [|p|p] eqn:Hs; [lia | | lia].
    apply Z.shiftl_nonneg. lia. }
  pose proof (Z_div_mod m' (Z.pos m) ltac:(lia)) as Hdiv.
  destruct (Z.div_eucl m' (Z.pos m)) as [q r].
  apply binary_round_aux_nonnegative. nia.
Qed.

Lemma mul_nonnegative (x : number) (m : positive) (e : Z) :
  nonnegative x → nonnegative (mul x (S754_finite false m e)).
Proof.
  destruct x as [[] | [] | | [] mx ex]; simpl; try done. intros _.
  by apply binary_round_aux_nonnegative.
Qed.


Lemma add_zero_l (x : number) : nonnegative x → add zero x = x.
Proof. by destruct x as [[] | [] | | [] m e]. Qed.

Lemma add_zero_r (x : number) : nonnegative x → add x zero = x.
Proof. by destruct x as [[] | [] | | [] m e]. Qed.


Lemma mul_NaN (x : number) : mul x NaN = NaN.
Proof. by destruct x. Qed.

(** The shares of a token count in a cost: never negative, never [NaN]. *)
Lemma share_nonnegative (tokens : Z) (price : number) :
  0 ≤ tokens → (∃ m e, price = S754_finite false m e) →
  nonnegative (mul (div (ofZ tokens) (ofZ 1000000)) price).
Proof.
  intros Ht (m & e & ->). apply mul_nonnegative.
  replace (ofZ 1000000) with (S754_finite false 8589934592000000 (-33))
    by (by vm_compute).
  by apply div_nonnegative, ofZ_nonnegative.
Qed.

End Signs.
(** * Properties *)

(** ** Lists: the JavaScript array methods against their meaning *)

Section ArrayMethods.
Context {A : Type}.

Lemma existsb_elem_of (f : A → bool) (l : list A) :
  existsb f l = true ↔ ∃ x, x ∈ l ∧ f x = true.
Proof.
  rewrite existsb_exists. split; intros (x & Hx & Hf); exists x; split; auto;
    by apply list_elem_of_In.
Qed.

Lemma forallb_elem_of (f : A → bool) (l : list A) :
  forallb f l = true ↔ ∀ x, x ∈ l → f x = true.
Proof.
  rewrite forallb_forall. split; intros H x Hx; apply H; by apply list_elem_of_In.
Qed.

Lemma filter_elem_of (f : A → bool) (l : list A) (x : A) :
  x ∈ List.filter f l ↔ x ∈ l ∧ f x = true.
Proof. rewrite !list_elem_of_In. apply filter_In. Qed.

Lemma filter_sublist (f : A → bool) (l : list A) : sublist (List.filter f l) l.
Proof.
  induction l as [|a l IH]; simpl; [constructor|].
  destruct (f a); by constructor.
Qed.



Lemma find_none_elem_of (f : A → bool) (l : list A) :
  (∀ y, y ∈ l → f y = false) → find f l = None.
Proof.
  induction l as [|a l IH]; simpl; intros Hl; [done|].
  rewrite (Hl a) by left. apply IH. intros y Hy. apply Hl. by right.
Qed.


End ArrayMethods.

(** ** Mismatch classification *)






(** ** Missing items *)

Lemma isMissing_reflect (predictions : list CartItem) (g : CartItem) :
  negb (existsb (fun pred => bool_decide (product_id pred = product_id g)) predictions)
    = true ↔ isMissing predictions g.
Proof.
  rewrite negb_true_iff, <- not_true_iff_false, existsb_elem_of. split.
  - intros Hno p Hp Heq. apply Hno. exists p. split; [done|].
    by apply bool_decide_eq_true.
  - intros Hmiss (p & Hp & Heq). apply bool_decide_eq_true in Heq.
    by apply (Hmiss p).
Qed.

(** C5. [getMissingItems] returns exactly the ground-truth items whose
    product id occurs in no predicted item, in their ground-truth order: it
    is the ground-truth cart filtered by that property (so order and
    repetitions are kept), hence a subsequence of the cart whose members are
    the missing items and nothing else. *)
Theorem getMissingItems_exact (groundTruth predictions : list CartItem) :
  getMissingItems groundTruth predictions
    = filter (isMissing predictions) groundTruth ∧
  sublist (getMissingItems groundTruth predictions) groundTruth ∧
  ∀ g, g ∈ getMissingItems groundTruth predictions ↔
       g ∈ groundTruth ∧ isMissing predictions g.
Proof.
  split; [|split].
  - unfold getMissingItems.
    induction groundTruth as [|g G IH]; [done|].
    simpl. rewrite filter_cons, IH.
    destruct (decide (isMissing predictions g)) as [Hm | Hm].
    + apply isMissing_reflect in Hm. by rewrite Hm.
    + rewrite <- isMissing_reflect in Hm. apply not_true_is_false in Hm.
      by rewrite Hm.
  - apply filter_sublist.
  - intros g. unfold getMissingItems. rewrite filter_elem_of.
    by rewrite isMissing_reflect.
Qed.

(** ** Exact match *)

Lemma cartItemsMatch_key (g p : CartItem) :
  cartItemsMatch g p = true ↔ itemKey g = itemKey p.
Proof.
  unfold cartItemsMatch, itemKey. rewrite !andb_true_iff, !bool_decide_eq_true.
  split; [intros [[-> ->] ->]; done | intros [= -> -> ->]; done].
Qed.

Lemma every_some_match (gtItems predItems : list CartItem) :
  forallb (fun gt => existsb (fun pred => cartItemsMatch gt pred) predItems) gtItems = true
  ↔ ∀ g, g ∈ gtItems → ∃ p, p ∈ predItems ∧ itemKey g = itemKey p.
Proof.
  rewrite forallb_elem_of. split; intros H g Hg.
  - apply H in Hg. apply existsb_elem_of in Hg as (p & Hp & Hm).
    exists p. split; [done|]. by apply cartItemsMatch_key.
  - apply existsb_elem_of. destruct (H g Hg) as (p & Hp & Hk).
    exists p. split; [done|]. by apply cartItemsMatch_key.
Qed.

Lemma isExactMatch_unfold (gtItems predItems : list CartItem) :
  isExactMatch gtItems predItems = true ↔
  length gtItems = length predItems ∧
  ∀ g, g ∈ gtItems → ∃ p, p ∈ predItems ∧ itemKey g = itemKey p.
Proof.
  unfold isExactMatch.
  by rewrite andb_true_iff, bool_decide_eq_true, every_some_match.
Qed.

Lemma key_id (c : CartItem) : product_id c = (itemKey c).1.1.
Proof. done. Qed.

Lemma ids_of_keys (l : list CartItem) :
  product_id <$> l = (fun k : string * Z * string => k.1.1) <$> (itemKey <$> l).
Proof. rewrite <- list_fmap_compose. done. Qed.

Lemma NoDup_keys (l : list CartItem) :
  NoDup (product_id <$> l) → NoDup (itemKey <$> l).
Proof. rewrite ids_of_keys. apply NoDup_fmap_1. Qed.

Lemma keys_incl (l k : list CartItem) :
  (∀ g, g ∈ l → ∃ p, p ∈ k ∧ itemKey g = itemKey p) →
  ∀ x, x ∈ itemKey <$> l → x ∈ itemKey <$> k.
Proof.
  intros H x Hx. apply list_elem_of_fmap in Hx as (g & -> & Hg).
  destruct (H g Hg) as (p & Hp & ->). by apply list_elem_of_fmap_2.
Qed.

Lemma ids_incl (l k : list CartItem) :
  (∀ g, g ∈ l → ∃ p, p ∈ k ∧ itemKey g = itemKey p) →
  ∀ x, x ∈ product_id <$> l → x ∈ product_id <$> k.
Proof.
  intros H x Hx. apply list_elem_of_fmap in Hx as (g & -> & Hg).
  destruct (H g Hg) as (p & Hp & Hk). rewrite key_id, Hk, <- key_id.
  by apply list_elem_of_fmap_2.
Qed.

(** With distinct ground-truth ids, the length test of [isExactMatch]
    amounts to the predicted cart repeating no product id. *)
Lemma isExactMatch_keys_perm (gtItems predItems : list CartItem) :
  NoDup (product_id <$> gtItems) →
  isExactMatch gtItems predItems = true →
  itemKey <$> gtItems ≡ₚ itemKey <$> predItems.
Proof.
  intros Hnd [Hlen Hall]%isExactMatch_unfold.
  apply submseteq_length_Permutation.
  - apply NoDup_submseteq; [by apply NoDup_keys | by apply keys_incl].
  - rewrite !length_fmap. lia.
Qed.

(** The amended reading of C2: with pairwise-distinct ground-truth product
    ids, [isExactMatch] holds exactly when the two carts are equal as sets of
    (product id, quantity, unit) triples and the predicted cart repeats no
    product id; and the answer does not depend on the order of either cart. *)
Theorem isExactMatch_set_equality (gtItems predItems : list CartItem) :
  NoDup (product_id <$> gtItems) →
  (isExactMatch gtItems predItems = true ↔
     spec_exact_match gtItems predItems ∧ NoDup (product_id <$> predItems)) ∧
  (∀ gtItems' predItems', gtItems ≡ₚ gtItems' → predItems ≡ₚ predItems' →
     isExactMatch gtItems' predItems' = isExactMatch gtItems predItems).
Proof.
  intros Hnd. split.
  - split.
    + intros Hex. pose proof (isExactMatch_keys_perm _ _ Hnd Hex) as Hperm.
      apply isExactMatch_unfold in Hex as [Hlen Hall].
      split; [split; [done|]|].
      * intros p Hp.
        assert (Hk : itemKey p ∈ itemKey <$> gtItems)
          by (rewrite Hperm; by apply list_elem_of_fmap_2).
        apply list_elem_of_fmap in Hk as (g & Hpk & Hg). by exists g.
      * rewrite ids_of_keys, <- Hperm, <- ids_of_keys. done.
    + intros [[Hgp Hpg] Hndp]. apply isExactMatch_unfold. split; [|done].
      assert (H1 : product_id <$> gtItems ⊆+ product_id <$> predItems)
        by (apply NoDup_submseteq; [done | by apply ids_incl]).
      assert (H2 : product_id <$> predItems ⊆+ product_id <$> gtItems).
      { apply NoDup_submseteq; [done|]. apply ids_incl.
        intros p Hp. destruct (Hpg p Hp) as (g & Hg & Hk). by exists g. }
      apply submseteq_length in H1, H2. rewrite !length_fmap in H1, H2. lia.
  - intros gt' pred' Hg Hp.
    apply eq_true_iff_eq. rewrite !isExactMatch_unfold.
    rewrite <- (Permutation_length Hg), <- (Permutation_length Hp).
    split; intros [Hlen Hall]; (split; [done|]); intros g Hgin.
    + rewrite Hg in Hgin. destruct (Hall g Hgin) as (p & Hpin & Hk).
      exists p. by rewrite Hp.
    + rewrite <- Hg in Hgin. destruct (Hall g Hgin) as (p & Hpin & Hk).
      exists p. by rewrite <- Hp.
Qed.

Lemma isExactMatch_set_equality_witness :
  isExactMatch [itemA 1; mkCartItem "B" "Product B" 1 "box"]
               [mkCartItem "B" "b" 1 "box"; itemA 1] = true ↔
  spec_exact_match [itemA 1; mkCartItem "B" "Product B" 1 "box"]
                   [mkCartItem "B" "b" 1 "box"; itemA 1] ∧
  NoDup (product_id <$> [mkCartItem "B" "b" 1 "box"; itemA 1]).
Proof.
  refine (proj1 (isExactMatch_set_equality
                   [itemA 1; mkCartItem "B" "Product B" 1 "box"]
                   [mkCartItem "B" "b" 1 "box"; itemA 1] _)).
  apply (bool_decide_unpack _). vm_compute. exact I.
Defined.

(** C2 as stated fails: a predicted cart that lists the one ground-truth
    item twice equals the ground truth as a set, and is not an exact match. *)
Lemma isExactMatch_not_set_equality :
  ¬ (∀ gtItems predItems, NoDup (product_id <$> gtItems) →
       (isExactMatch gtItems predItems = true ↔ spec_exact_match gtItems predItems)).
Proof.
  intros H.
  specialize (H [itemA 1] [itemA 1; itemA 1]).
  assert (Hnd : NoDup (product_id <$> [itemA 1])).
  { simpl. apply NoDup_singleton. }
  destruct (H Hnd) as [_ Hback].
  assert (Hspec : spec_exact_match [itemA 1] [itemA 1; itemA 1]).
  { split.
    - intros g Hg. exists (itemA 1). split; [left|].
      by apply list_elem_of_singleton in Hg as ->.
    - intros p Hp. exists (itemA 1). split; [left|].
      apply elem_of_cons in Hp as [-> | Hp]; [done|].
      by apply list_elem_of_singleton in Hp as ->. }
  specialize (Hback Hspec). vm_compute in Hback. discriminate.
Qed.

(** ** Step cost *)



Lemma calculateCost_nonzero (i o : Z) (modelName : string) :
  i ≠ 0 → o ≠ 0 →
  calculateCost i o modelName
    = smallTierCost i o (default PRICING_PRO (MODEL_PRICING !! modelName)).
Proof.
  intros Hi Ho. unfold calculateCost, falsy.
  apply Z.eqb_neq in Hi, Ho. by rewrite Hi, Ho.
Qed.

Lemma IEEE_getProperty_MODEL_PRICING (modelName : string) :
  IEEE.orProperty (IEEE.getProperty IEEE.MODEL_PRICING modelName)
                  (IEEE.getProperty IEEE.MODEL_PRICING "gemini-2.5-pro")
    = if bool_decide (modelName = "gemini-2.5-flash") then IEEE.Own IEEE.PRICING_FLASH
      else if bool_decide (modelName ∈ IEEE.objectPrototypeNames) then IEEE.Inherited
      else IEEE.Own IEEE.PRICING_PRO.
Proof.
  unfold IEEE.getProperty, IEEE.MODEL_PRICING.
  destruct (decide (modelName = "gemini-2.5-pro")) as [-> | Hpro]; [done|].
  rewrite (lookup_insert_ne _ "gemini-2.5-pro" modelName) by done.
  destruct (decide (modelName = "gemini-2.5-flash")) as [-> | Hflash]; [done|].
  rewrite lookup_insert_ne, lookup_empty by done.
  rewrite (bool_decide_eq_false_2 _ Hflash). simpl.
  by destruct (bool_decide (modelName ∈ IEEE.objectPrototypeNames)).
Qed.

Lemma table_names_not_inherited (modelName : string) :
  modelName ∈ IEEE.objectPrototypeNames →
  modelName ≠ "gemini-2.5-pro" ∧ modelName ≠ "gemini-2.5-flash".
Proof.
  unfold IEEE.objectPrototypeNames. intros H.
  repeat (apply elem_of_cons in H as [-> | H]; [done|]).
  by apply elem_of_nil in H.
Qed.

Lemma IEEE_eqb_NaN (x : IEEE.number) : IEEE.eqb IEEE.NaN x = false.
Proof. done. Qed.



(** The cost of [1000] input and [200] output tokens under the model name
    [constructor] is [NaN], where [gemini-2.5-pro] costs the number printed
    as [0.0032500000000000003]. *)
Example cost_of_constructor :
  IEEE.calculateModelResultCost (Some (flashResult (Some 1000) (Some 200))) "constructor"
    = IEEE.NaN ∧
  IEEE.calculateModelResultCost (Some (flashResult (Some 1000) (Some 200)))
                                "gemini-2.5-pro"
    = S754_finite false 7493989779944506 (-61).
Proof. vm_compute. done. Qed.

(** The cost of [1000] input and [200] output tokens of [gemini-2.5-flash]
    is the number printed as [0.0007999999999999999], the number just below
    the one nearest to the exact value [0.0008] of the formula. *)
Example cost_flash_rounding :
  IEEE.calculateModelResultCost (Some (flashResult (Some 1000) (Some 200)))
                                "gemini-2.5-flash"
    = S754_finite false 7378697629483820 (-63) ∧
  IEEE.decimal 8 10000 = S754_finite false 7378697629483821 (-63).
Proof. vm_compute. done. Qed.

(** ** Batch selection *)

Lemma JSSet_add_NoDup (x : string) (s : JSSet.t) : NoDup s → NoDup (JSSet.add x s).
Proof.
  intros Hs. unfold JSSet.add, JSSet.has. case_bool_decide as Hx; [done|].
  apply NoDup_app. split; [done|]. split; [|apply NoDup_singleton].
  intros y Hy ->%list_elem_of_singleton. done.
Qed.

Lemma JSSet_delete_NoDup (x : string) (s : JSSet.t) :
  NoDup s → NoDup (JSSet.delete x s).
Proof. intros Hs. eapply sublist_NoDup; [done | apply filter_sublist]. Qed.

Lemma JSSet_of_array_NoDup (l : list string) : NoDup (JSSet.of_array l).
Proof.
  unfold JSSet.of_array.
  assert (H : ∀ acc, NoDup acc → NoDup (foldl (fun s x => JSSet.add x s) acc l)).
  { induction l as [|x l IH]; intros acc Hacc; simpl; [done|].
    apply IH. by apply JSSet_add_NoDup. }
  apply H. constructor.
Qed.

Lemma applySelection_NoDup (sel : JSSet.t) (a : SelectionAction) :
  NoDup sel → NoDup (applySelection sel a).
Proof.
  intros Hs. destruct a as [x | ids |]; simpl.
  - unfold toggleScenarioSelection. cbv zeta.
    destruct (JSSet.has x sel);
      [by apply JSSet_delete_NoDup | by apply JSSet_add_NoDup].
  - apply JSSet_of_array_NoDup.
  - constructor.
Qed.

Lemma selectionAfter_NoDup (actions : list SelectionAction) :
  NoDup (selectionAfter actions).
Proof.
  unfold selectionAfter.
  assert (H : ∀ acc, NoDup acc → NoDup (foldl applySelection acc actions)).
  { induction actions as [|a actions IH]; intros acc Hacc; simpl; [done|].
    apply IH. by apply applySelection_NoDup. }
  apply H. constructor.
Qed.

Lemma toggle_elem_of (x y : string) (sel : JSSet.t) :
  y ∈ toggleScenarioSelection x sel ↔ (y ∈ sel ∧ y ≠ x) ∨ (y = x ∧ x ∉ sel).
Proof.
  unfold toggleScenarioSelection, JSSet.delete, JSSet.add, JSSet.has. cbv zeta.
  destruct (bool_decide (x ∈ sel)) eqn:Hx.
  - apply bool_decide_eq_true in Hx. cbv iota.
    rewrite filter_elem_of, negb_true_iff, bool_decide_eq_false.
    split; [by left | intros [H | [_ H]]; done].
  - apply bool_decide_eq_false in Hx. cbv iota.
    rewrite elem_of_app, list_elem_of_singleton.
    split.
    + intros [Hy | ->]; [left | by right].
      split; [done | by intros ->].
    + intros [[Hy _] | [-> _]]; [by left | by right].
Qed.

(** C9. Whatever the user did to the selection (toggling a scenario, which
    adds the id when absent and removes it when present, selecting all,
    clearing), the id list [handleBatchExecute] passes to [batchExecute]
    holds every scenario id at most once. *)
Theorem batchExecute_ids_distinct (actions : list SelectionAction) :
  (∀ ids, handleBatchExecute (selectionAfter actions) = Some ids → NoDup ids) ∧
  (∀ x y, y ∈ toggleScenarioSelection x (selectionAfter actions) ↔
          (y ∈ selectionAfter actions ∧ y ≠ x) ∨
          (y = x ∧ x ∉ selectionAfter actions)).
Proof.
  split.
  - intros ids. unfold handleBatchExecute.
    destruct (JSSet.size (selectionAfter actions) =? 0)%nat; [done|].
    intros [= <-]. apply selectionAfter_NoDup.
  - intros x y. apply toggle_elem_of.
Qed.

Lemma batchExecute_ids_distinct_witness : NoDup ["s2"; "s3"].
Proof.
  apply (proj1 (batchExecute_ids_distinct
                  [Toggle "s1"; SelectAll ["s1"; "s2"; "s1"]; Toggle "s3"; Toggle "s1"])).
  vm_compute. reflexivity.
Defined.

(** ** Comparison metrics *)

Section Metrics.
Import Compare.
Local Open Scope Q_scope.







End Metrics.












Example compare_identical :
  let m := Compare.compare [itemOf "A" 2] [itemOf "A" 2] in
  (Compare.precision m == 1 ∧ Compare.recall m == 1 ∧ Compare.f1_score m == 1)%Q.
Proof. vm_compute. repeat split; reflexivity. Qed.

Example compare_quantity_off :
  let m := Compare.compare [itemOf "A" 2] [itemOf "A" 3] in
  (Compare.precision m == 0 ∧ Compare.recall m == 0 ∧ Compare.f1_score m == 0)%Q.
Proof. vm_compute. repeat split; reflexivity. Qed.

Example compare_one_of_two :
  let m := Compare.compare [itemOf "A" 1; itemOf "B" 1] [itemOf "A" 1; itemOf "C" 1] in
  (Compare.precision m == 1 # 2 ∧ Compare.recall m == 1 # 2 ∧
   Compare.f1_score m == 1 # 2)%Q.
Proof. vm_compute. repeat split; reflexivity. Qed.


Example compare_duplicate_prediction :
  let m := Compare.compare [itemOf "A" 1] [itemOf "A" 1; itemOf "A" 1] in
  (Compare.precision m == 1 ∧ Compare.recall m == 2 ∧ Compare.f1_score m == 4 # 3)%Q.
Proof. vm_compute. repeat split; reflexivity. Qed.

(** ** Single-flight execution in the status store *)

Section SingleFlight.
Import StatusStore.















End SingleFlight.




(** The same session, request by request: the third start is accepted and
    the store reports one running entry for two executions. *)
Example cleanup_race_trace :
  let e := StatusStore.run [StatusStore.Start "s1" 2 5;
                            StatusStore.Finish "s1" StatusStore.Completed None;
                            StatusStore.Start "s1" 2 5;
                            StatusStore.Cleanup "s1"] StatusStore.initial in
  StatusStore.entries e !! "s1" = None ∧
  StatusStore.inFlight e = ["s1"] ∧
  (StatusStore.step e (StatusStore.Start "s1" 2 5)).2 = StatusStore.Accepted ∧
  StatusStore.inFlight (StatusStore.step e (StatusStore.Start "s1" 2 5)).1
    = ["s1"; "s1"].
Proof. vm_compute. done. Qed.

(** ** The declared status type *)

(** C6. The declared [ExecutionStatus] has four members, none of which is
    [cancelled]; yet the test both pollers apply accepts ["cancelled"] as a
    terminal status, next to ["completed"] and ["failed"]. *)
Theorem cancelled_not_in_ExecutionStatus :
  isTerminalStatus "cancelled" = true ∧
  (∀ s : ExecutionStatus, ExecutionStatus_literal s ≠ "cancelled") ∧
  (∀ s : ExecutionStatus,
     ExecutionStatus_literal s ∈ ["pending"; "running"; "completed"; "failed"]) ∧
  (∀ s : string, isTerminalStatus s = true ↔
                 s ∈ ["completed"; "failed"; "cancelled"]).
Proof.
  split; [done|]. split; [by intros []|]. split.
  - intros []; simpl; set_solver.
  - intros s. unfold isTerminalStatus.
    rewrite !orb_true_iff, !bool_decide_eq_true, !elem_of_cons, elem_of_nil. tauto.
Qed.

(** ** The pollers *)

Section ListPoller.
Import ScenarioList.

Lemma onPollResponse_interval (scenarioId : string) (scenarioName : option string)
    (response : ExecutionStatusInfo) (st : State) (other : string) :
  pollingIntervals (onPollResponse scenarioId scenarioName response st) !! other =
    if bool_decide (other = scenarioId) && isTerminalStatus (status response)
    then None else pollingIntervals st !! other.
Proof.
  unfold onPollResponse.
  destruct (isTerminalStatus (status response)); [|by rewrite andb_false_r].
  rewrite andb_true_r.
  case_bool_decide as Hs; case_bool_decide as Hc; simpl; subst;
    by rewrite ?lookup_delete_eq, ?lookup_delete_ne.
Qed.

Lemma onPollResponse_completed (scenarioId : string) (scenarioName : option string)
    (response : ExecutionStatusInfo) (st : State) :
  completedScenarios st ⊆
    completedScenarios (onPollResponse scenarioId scenarioName response st).
Proof.
  unfold onPollResponse.
  destruct (isTerminalStatus (status response)); [|done].
  case_bool_decide; simpl; set_solver.
Qed.

Lemma toastsFor_app (scenarioId : string) (ts us : list Toast) :
  toastsFor scenarioId (ts ++ us) = (toastsFor scenarioId ts + toastsFor scenarioId us)%nat.
Proof. unfold toastsFor. by rewrite List.filter_app, length_app. Qed.

Lemma terminalToast_scenario (scenarioId label : string) (response : ExecutionStatusInfo) :
  toast_scenario (terminalToast scenarioId label response) = scenarioId.
Proof. unfold terminalToast. by repeat case_bool_decide. Qed.

(** One answer adds one toast, for its own scenario, exactly when it is
    terminal and the scenario has not notified yet; it then marks it. *)
Lemma onPollResponse_toasts (scenarioId : string) (scenarioName : option string)
    (response : ExecutionStatusInfo) (st : State) (watched : string) :
  toastsFor watched (toasts (onPollResponse scenarioId scenarioName response st)) =
    (toastsFor watched (toasts st) +
     if isTerminalStatus (status response) && bool_decide (watched = scenarioId) &&
        bool_decide (scenarioId ∉ completedScenarios st)
     then 1 else 0)%nat.
Proof.
  unfold onPollResponse.
  destruct (isTerminalStatus (status response)); simpl; [|lia].
  destruct (decide (scenarioId ∈ completedScenarios st)) as [Hc | Hc].
  - rewrite (bool_decide_eq_true_2 _ Hc). simpl.
    rewrite (bool_decide_eq_false_2 (scenarioId ∉ _)) by (by intros ?).
    rewrite andb_false_r. lia.
  - rewrite (bool_decide_eq_false_2 _ Hc). simpl.
    rewrite (bool_decide_eq_true_2 (scenarioId ∉ _)) by done.
    rewrite andb_true_r, toastsFor_app. f_equal.
    unfold toastsFor. simpl. rewrite terminalToast_scenario.
    rewrite (bool_decide_ext (scenarioId = watched) (watched = scenarioId)) by done.
    by case_bool_decide.
Qed.

Lemma onPollResponse_marks (scenarioId : string) (scenarioName : option string)
    (response : ExecutionStatusInfo) (st : State) :
  isTerminalStatus (status response) = true →
  scenarioId ∈ completedScenarios (onPollResponse scenarioId scenarioName response st).
Proof.
  intros Hterm. unfold onPollResponse. rewrite Hterm.
  case_bool_decide; simpl; set_solver.
Qed.

(** Whatever answers arrive, for whatever scenarios and however late, a
    scenario gets at most one more toast, and none once it has notified. *)
Lemma pollAll_notifies_once (answers : list Answer) (st : State) (watched : string) :
  (toastsFor watched (toasts (pollAll answers st)) ≤
   toastsFor watched (toasts st) +
   if bool_decide (watched ∈ completedScenarios st) then 0 else 1)%nat.
Proof.
  unfold pollAll. revert st.
  induction answers as [|[s n r] answers IH]; intros st; simpl.
  - lia.
  - etrans; [apply IH|]. rewrite onPollResponse_toasts.
    pose proof (onPollResponse_completed s n r st) as Hmono.
    destruct (isTerminalStatus (status r)) eqn:Hterm; simpl.
    + destruct (decide (watched = s)) as [-> | Hne].
      * rewrite (bool_decide_eq_true_2 (s = s)) by done. simpl.
        rewrite (bool_decide_eq_true_2 (s ∈ completedScenarios (onPollResponse _ _ _ _)))
          by (by apply onPollResponse_marks).
        repeat case_bool_decide; done || lia.
      * rewrite (bool_decide_eq_false_2 (watched = s)) by done. simpl.
        repeat case_bool_decide; try lia. exfalso. set_solver.
    + repeat case_bool_decide; try lia. exfalso. set_solver.
Qed.

End ListPoller.

(** C8. In the scenario list, a terminal answer for a scenario that has not
    notified yet schedules one callback for that scenario, [3000] ms later
    (any other answer schedules nothing); when the callback runs, the status
    entry of that scenario is gone and the scenario has left the
    already-notified set, so that its next terminal answer notifies again,
    while the entries and the marks of all other scenarios, the intervals and
    the toasts are as before. *)
Theorem clearStatus_frame (scenarioId : string) (st : ScenarioList.State) :
  ScenarioList.CLEAR_DELAY_MS = 3000 ∧
  (∀ scenarioName response,
     ScenarioList.timeouts
       (ScenarioList.onPollResponse scenarioId scenarioName response st) =
     (if isTerminalStatus (status response) &&
         bool_decide (scenarioId ∉ ScenarioList.completedScenarios st)
      then ScenarioList.timeouts st ++ [(ScenarioList.CLEAR_DELAY_MS, scenarioId)]
      else ScenarioList.timeouts st)) ∧
  (ScenarioList.executionStatuses (ScenarioList.clearStatus scenarioId st) !! scenarioId)
    = None ∧
  (scenarioId ∉ ScenarioList.completedScenarios (ScenarioList.clearStatus scenarioId st)) ∧
  (∀ other, other ≠ scenarioId →
     (ScenarioList.executionStatuses (ScenarioList.clearStatus scenarioId st) !! other)
       = (ScenarioList.executionStatuses st !! other) ∧
     (other ∈ ScenarioList.completedScenarios (ScenarioList.clearStatus scenarioId st)
        ↔ other ∈ ScenarioList.completedScenarios st)) ∧
  ScenarioList.pollingIntervals (ScenarioList.clearStatus scenarioId st)
    = ScenarioList.pollingIntervals st ∧
  ScenarioList.toasts (ScenarioList.clearStatus scenarioId st) = ScenarioList.toasts st ∧
  (∀ scenarioName response, isTerminalStatus (status response) = true →
     toastsFor scenarioId
       (ScenarioList.toasts
          (ScenarioList.onPollResponse scenarioId scenarioName response
             (ScenarioList.clearStatus scenarioId st)))
     = S (toastsFor scenarioId (ScenarioList.toasts st))).
Proof.
  split; [done|]. split; [|split; [|split; [|split; [|split; [|split]]]]].
  - intros n r. unfold ScenarioList.onPollResponse.
    destruct (isTerminalStatus (status r)); simpl; [|done].
    destruct (decide (scenarioId ∈ ScenarioList.completedScenarios st)) as [Hc | Hc].
    + rewrite (bool_decide_eq_true_2 _ Hc).
      by rewrite (bool_decide_eq_false_2 (scenarioId ∉ _)) by (by intros ?).
    + rewrite (bool_decide_eq_false_2 _ Hc).
      by rewrite (bool_decide_eq_true_2 (scenarioId ∉ _)) by done.
  - simpl. apply lookup_delete_eq.
  - simpl. rewrite elem_of_difference, elem_of_singleton. tauto.
  - intros other Hne. simpl. split; [by apply lookup_delete_ne|].
    rewrite elem_of_difference, elem_of_singleton. tauto.
  - done.
  - done.
  - intros n r Hterm. rewrite onPollResponse_toasts, Hterm. simpl.
    rewrite (bool_decide_eq_true_2 (scenarioId = scenarioId)) by done.
    rewrite bool_decide_eq_true_2; [simpl; lia|].
    simpl. rewrite elem_of_difference, elem_of_singleton. tauto.
Qed.

(** The entry of ["s2"] survives the cleanup that follows the completion
    of ["s1"]. *)
Lemma clearStatus_frame_witness :
  (ScenarioList.executionStatuses
     (ScenarioList.clearStatus "s1"
        (ScenarioList.onPollResponse "s1" None (statusInfo "completed" None) listState))
     !! "s2")
  = (ScenarioList.executionStatuses
       (ScenarioList.onPollResponse "s1" None (statusInfo "completed" None) listState)
     !! "s2").
Proof.
  refine (proj1 (proj1 (proj2 (proj2 (proj2 (proj2 (clearStatus_frame "s1" _))))) "s2" _)).
  discriminate.
Defined.

Section DetailPoller.
Import ScenarioDetail.

(** The detail poller drops its interval exactly on a terminal answer. *)
Lemma detail_onPollResponse_interval (response : ExecutionStatusInfo) (st : State) :
  pollingInterval (onPollResponse response st) =
    if isTerminalStatus (status response) then None else pollingInterval st.
Proof. unfold onPollResponse. by destruct (isTerminalStatus (status response)). Qed.

(** Every terminal answer it processes raises a toast: nothing remembers
    that the scenario has notified. *)
Lemma detail_onPollResponse_toasts (response : ExecutionStatusInfo) (st : State) :
  length (toasts (onPollResponse response st)) =
    (length (toasts st) + if isTerminalStatus (status response) then 1 else 0)%nat.
Proof.
  unfold onPollResponse. destruct (isTerminalStatus (status response)); simpl.
  - by rewrite length_app.
  - lia.
Qed.

Lemma run_cons (e : Event) (events : list Event) (st : State) :
  run (e :: events) st = run events (step st e).
Proof. done. Qed.

(** Once the interval is cleared and no request is in flight, the poller is
    quiet. *)
Lemma detail_quiet (events : list Event) (st : State) :
  pollingInterval st = None → inFlight st = O →
  toasts (run events st) = toasts st.
Proof.
  revert st.
  induction events as [|e events IH]; intros st Hint Hfl; [done|].
  rewrite run_cons. destruct e as [| r |]; simpl.
  - rewrite Hint. by apply IH.
  - rewrite Hfl. by apply IH.
  - rewrite IH; [done | done | simpl; by rewrite Hfl].
Qed.

(** With a single request in flight, its terminal answer is the last one
    acted upon: one toast, whatever the event loop delivers afterwards. *)
Lemma detail_single_request_once (events : list Event)
    (response : ExecutionStatusInfo) (st : State) :
  inFlight st = 1%nat → isTerminalStatus (status response) = true →
  length (toasts (run (Response response :: events) st)) = S (length (toasts st)).
Proof.
  intros Hfl Hterm. rewrite run_cons. simpl. rewrite Hfl.
  rewrite detail_quiet.
  - rewrite detail_onPollResponse_toasts, Hterm. simpl. lia.
  - by rewrite detail_onPollResponse_interval, Hterm.
  - unfold onPollResponse. by rewrite Hterm.
Qed.

End DetailPoller.

(** C7. The list poller drops the interval of a scenario exactly on a
    terminal answer and raises at most one toast per scenario until the
    cleanup, however many answers arrive. The detail poller drops its
    interval on a terminal answer too, but when the interval fires before
    the first request is answered, both requests are answered [completed]
    and both answers raise the completion toast and reload the comparison. *)
Theorem detail_poller_notifies_twice :
  let polling := ScenarioDetail.startPolling 1 detailState in
  let done := statusInfo "completed" None in
  let final :=
    ScenarioDetail.run
      [ScenarioDetail.Tick; ScenarioDetail.Response done; ScenarioDetail.Response done]
      polling in
  ScenarioDetail.pollingInterval polling = Some (mkInterval 1 1000) ∧
  (∀ scenarioId timer st,
     ScenarioList.pollingIntervals (ScenarioList.startPolling scenarioId timer st)
       !! scenarioId = Some (mkInterval timer 2000)) ∧
  ScenarioDetail.inFlight (ScenarioDetail.run [ScenarioDetail.Tick] polling) = 2%nat ∧
  ScenarioDetail.pollingInterval
    (ScenarioDetail.run [ScenarioDetail.Tick; ScenarioDetail.Response done] polling)
    = None ∧
  toastsFor "s1" (ScenarioDetail.toasts final) = 2%nat ∧
  ScenarioDetail.comparisonLoads final = 2%nat ∧
  (∀ answers st scenarioId,
     (toastsFor scenarioId (ScenarioList.toasts (ScenarioList.pollAll answers st)) ≤
      toastsFor scenarioId (ScenarioList.toasts st) +
      if bool_decide (scenarioId ∈ ScenarioList.completedScenarios st) then 0 else 1)%nat) ∧
  (∀ scenarioId scenarioName response st,
     ScenarioList.pollingIntervals
       (ScenarioList.onPollResponse scenarioId scenarioName response st) !! scenarioId =
     if isTerminalStatus (status response) then None
     else ScenarioList.pollingIntervals st !! scenarioId).
Proof.
  cbv zeta. split; [done|]. split; [intros; apply lookup_insert_eq|].
  split; [done|]. split; [done|]. split; [done|]. split; [done|]. split.
  - intros answers st s. apply pollAll_notifies_once.
  - intros s n r st. rewrite onPollResponse_interval.
    by rewrite bool_decide_eq_true_2.
Qed.

(** ** Reordering the execution queue *)

Section QueueMoves.
Import ExecutionQueue.

Lemma swapAt_cons {A : Type} (i j : nat) (a : A) (l : list A) :
  swapAt (S i) (S j) (a :: l) = a :: swapAt i j l.
Proof. unfold swapAt. simpl. by destruct (l !! i), (l !! j). Qed.

Lemma swapAt_next {A : Type} (l1 l2 : list A) (x y : A) :
  swapAt (length l1) (length l1 + 1) (l1 ++ x :: y :: l2) = l1 ++ y :: x :: l2.
Proof.
  induction l1 as [|a l1 IH]; [done|].
  simpl. by rewrite swapAt_cons, IH.
Qed.

Lemma swapAt_prev {A : Type} (l1 l2 : list A) (x y : A) :
  swapAt (length l1 + 1) (length l1 + 1 - 1) (l1 ++ y :: x :: l2) = l1 ++ x :: y :: l2.
Proof.
  replace (length l1 + 1 - 1)%nat with (length l1) by lia.
  induction l1 as [|a l1 IH]; [done|].
  simpl. by rewrite swapAt_cons, IH.
Qed.

Lemma findIndex_Some (s : string) (q : list QueuedScenario) (i : nat) :
  findIndex s q = Some i ↔
  ∃ l1 x l2, q = l1 ++ x :: l2 ∧ length l1 = i ∧ scenario_id x = s ∧
             ∀ z, z ∈ l1 → scenario_id z ≠ s.
Proof.
  unfold findIndex. split.
  - destruct (list_find _ q) as [[j x]|] eqn:Hf; [|done]. simpl. intros [= ->].
    apply list_find_Some in Hf as (Hx & Hs & Hleast).
    exists (take i q), x, (drop (S i) q). split; [by rewrite take_drop_middle|].
    split; [apply length_take_le; apply lookup_lt_Some in Hx; lia|]. split; [done|].
    intros z Hz. apply list_elem_of_lookup in Hz as [j Hj].
    apply lookup_take_Some in Hj as [Hj Hlt]. by apply (Hleast j z).
  - intros (l1 & x & l2 & -> & <- & Hs & Hl1).
    assert (Hf : list_find (fun q => scenario_id q = s) (l1 ++ x :: l2)
                 = Some (length l1, x)).
    { apply list_find_Some. split; [by apply list_lookup_middle|]. split; [done|].
      intros j y Hj Hlt. rewrite lookup_app_l in Hj by done.
      apply Hl1. by eapply list_elem_of_lookup_2. }
    by rewrite Hf.
Qed.

Lemma findIndex_None (s : string) (q : list QueuedScenario) :
  findIndex s q = None ↔ ∀ z, z ∈ q → scenario_id z ≠ s.
Proof.
  unfold findIndex. rewrite fmap_None, list_find_None, Forall_forall. done.
Qed.

(** Moving up: the scenario trades places with the entry before it. *)
Lemma newOrder_up (q q' : list QueuedScenario) (s : string) :
  newOrder q s up = Some q' ↔
  ∃ l1 y x l2, q = l1 ++ y :: x :: l2 ∧ q' = l1 ++ x :: y :: l2 ∧
               scenario_id x = s ∧ scenario_id y ≠ s ∧
               ∀ z, z ∈ l1 → scenario_id z ≠ s.
Proof.
  unfold newOrder. split.
  - destruct (findIndex s q) as [i|] eqn:Hi; [|done].
    apply findIndex_Some in Hi as (l1 & x & l2 & -> & <- & Hs & Hl1).
    destruct (length l1 =? 0)%nat eqn:Hz; [done|]. intros [= <-].
    apply Nat.eqb_neq in Hz.
    destruct l1 as [|y l0 _] using rev_ind; [done|]. clear Hz.
    exists l0, y, x, l2. rewrite <- !app_assoc. simpl.
    split; [done|]. split.
    + rewrite length_app. simpl. apply swapAt_prev.
    + split; [done|]. split.
      * apply Hl1. apply elem_of_app. right. left.
      * intros z Hz. apply Hl1. apply elem_of_app. by left.
  - intros (l1 & y & x & l2 & -> & -> & Hs & Hy & Hl1).
    assert (Hi : findIndex s (l1 ++ y :: x :: l2) = Some (length l1 + 1)%nat).
    { apply findIndex_Some. exists (l1 ++ [y]), x, l2. rewrite <- app_assoc.
      split; [done|]. split; [rewrite length_app; simpl; lia|]. split; [done|].
      intros z [Hz | ->%list_elem_of_singleton]%elem_of_app; auto. }
    rewrite Hi. replace (length l1 + 1 =? 0)%nat with false
      by (symmetry; apply Nat.eqb_neq; lia).
    by rewrite swapAt_prev.
Qed.

(** Moving down: the scenario trades places with the entry after it. *)
Lemma newOrder_down (q q' : list QueuedScenario) (s : string) :
  newOrder q s down = Some q' ↔
  ∃ l1 x y l2, q = l1 ++ x :: y :: l2 ∧ q' = l1 ++ y :: x :: l2 ∧
               scenario_id x = s ∧ ∀ z, z ∈ l1 → scenario_id z ≠ s.
Proof.
  unfold newOrder. split.
  - destruct (findIndex s q) as [i|] eqn:Hi; [|done].
    apply findIndex_Some in Hi as (l1 & x & l2 & -> & <- & Hs & Hl1).
    destruct (length (l1 ++ x :: l2) <=? length l1 + 1)%nat eqn:Hlen; [done|].
    intros [= <-]. apply Nat.leb_gt in Hlen. rewrite length_app in Hlen. simpl in Hlen.
    destruct l2 as [|y l2]; [simpl in Hlen; lia|].
    exists l1, x, y, l2. split; [done|]. split; [apply swapAt_next|]. done.
  - intros (l1 & x & y & l2 & -> & -> & Hs & Hl1).
    assert (Hi : findIndex s (l1 ++ x :: y :: l2) = Some (length l1)).
    { apply findIndex_Some. by exists l1, x, (y :: l2). }
    rewrite Hi. replace (length (l1 ++ x :: y :: l2) <=? length l1 + 1)%nat with false
      by (symmetry; apply Nat.leb_gt; rewrite length_app; simpl; lia).
    by rewrite swapAt_next.
Qed.

Lemma newOrder_perm (q q' : list QueuedScenario) (s : string) (d : Direction) :
  newOrder q s d = Some q' → q' ≡ₚ q.
Proof.
  destruct d.
  - intros (l1 & y & x & l2 & -> & -> & _)%newOrder_up.
    apply Permutation_app_head, perm_swap.
  - intros (l1 & x & y & l2 & -> & -> & _)%newOrder_down.
    apply Permutation_app_head, perm_swap.
Qed.

End QueueMoves.

(** X1. Whenever [handleMoveInQueue] sends a reorder request, the id list it
    sends is the queue's id list with the moved scenario and one neighbour
    exchanged (the one before it when moving up, the one after it when
    moving down); in particular it is a permutation of the queue's ids, of
    the same length. *)
Theorem handleMoveInQueue_transposes
    (executionQueue : list ExecutionQueue.QueuedScenario) (scenarioId : string)
    (direction : ExecutionQueue.Direction) (ids : list string) :
  ExecutionQueue.handleMoveInQueue executionQueue scenarioId direction = Some ids →
  (∃ before a b after,
     ExecutionQueue.scenario_id <$> executionQueue = before ++ a :: b :: after ∧
     ids = before ++ b :: a :: after ∧
     scenarioId = match direction with
                  | ExecutionQueue.up => b
                  | ExecutionQueue.down => a
                  end) ∧
  ids ≡ₚ ExecutionQueue.scenario_id <$> executionQueue ∧
  length ids = length executionQueue.
Proof.
  unfold ExecutionQueue.handleMoveInQueue.
  destruct (ExecutionQueue.newOrder executionQueue scenarioId direction)
    as [q'|] eqn:Hq; [|done].
  simpl. intros [= <-]. split; [|split].
  - destruct direction.
    + apply newOrder_up in Hq as (l1 & y & x & l2 & -> & -> & Hs & _).
      exists (ExecutionQueue.scenario_id <$> l1), (ExecutionQueue.scenario_id y),
             (ExecutionQueue.scenario_id x), (ExecutionQueue.scenario_id <$> l2).
      by rewrite !fmap_app, !fmap_cons.
    + apply newOrder_down in Hq as (l1 & x & y & l2 & -> & -> & Hs & _).
      exists (ExecutionQueue.scenario_id <$> l1), (ExecutionQueue.scenario_id x),
             (ExecutionQueue.scenario_id y), (ExecutionQueue.scenario_id <$> l2).
      by rewrite !fmap_app, !fmap_cons.
  - by rewrite (newOrder_perm _ _ _ _ Hq).
  - rewrite length_fmap. by rewrite (newOrder_perm _ _ _ _ Hq).
Qed.

Lemma handleMoveInQueue_transposes_witness :
  ["s1"; "s3"; "s2"] ≡ₚ
    ExecutionQueue.scenario_id <$> [queued "s1"; queued "s2"; queued "s3"].
Proof.
  apply (handleMoveInQueue_transposes [queued "s1"; queued "s2"; queued "s3"]
           "s3" ExecutionQueue.up).
  vm_compute. reflexivity.
Defined.

(** X2. [handleMoveInQueue] sends no request in exactly three situations:
    the scenario is not in the queue; it is moved up while it is the first
    entry; it is moved down while its first occurrence is the last entry. *)
Theorem handleMoveInQueue_silent
    (executionQueue : list ExecutionQueue.QueuedScenario) (scenarioId : string)
    (direction : ExecutionQueue.Direction) :
  ExecutionQueue.handleMoveInQueue executionQueue scenarioId direction = None ↔
  (∀ z, z ∈ executionQueue → ExecutionQueue.scenario_id z ≠ scenarioId) ∨
  (direction = ExecutionQueue.up ∧
   ∃ x rest, executionQueue = x :: rest ∧ ExecutionQueue.scenario_id x = scenarioId) ∨
  (direction = ExecutionQueue.down ∧
   ∃ front x, executionQueue = front ++ [x] ∧
              ExecutionQueue.scenario_id x = scenarioId ∧
              ∀ z, z ∈ front → ExecutionQueue.scenario_id z ≠ scenarioId).
Proof.
  unfold ExecutionQueue.handleMoveInQueue. rewrite fmap_None.
  unfold ExecutionQueue.newOrder.
  destruct (ExecutionQueue.findIndex scenarioId executionQueue) as [i|] eqn:Hi.
  - pose proof Hi as (l1 & x & l2 & -> & <- & Hs & Hl1)%findIndex_Some.
    assert (Hin : ¬ ∀ z, z ∈ l1 ++ x :: l2 → ExecutionQueue.scenario_id z ≠ scenarioId).
    { intros Hno. apply (Hno x); [|done]. apply elem_of_app. right. left. }
    destruct direction.
    + destruct (length l1 =? 0)%nat eqn:Hz.
      * apply Nat.eqb_eq in Hz. destruct l1; [|done].
        split; [|done]. intros _. right. left. split; [done|]. by exists x, l2.
      * apply Nat.eqb_neq in Hz. split; [done|].
        intros [Hno | [[_ (x' & rest & Heq & Hx')] | [[=] _]]]; [done|].
        destruct l1 as [|a l1]; [done|]. simpl in Heq. injection Heq as <- _.
        exfalso. apply (Hl1 a); [left | done].
    + destruct (length (l1 ++ x :: l2) <=? length l1 + 1)%nat eqn:Hlen.
      * apply Nat.leb_le in Hlen. rewrite length_app in Hlen. simpl in Hlen.
        destruct l2; [|simpl in Hlen; lia].
        split; [|done]. intros _. right. right. split; [done|]. by exists l1, x.
      * apply Nat.leb_gt in Hlen. rewrite length_app in Hlen. simpl in Hlen.
        split; [done|].
        intros [Hno | [[[=] _] | [_ (front & x' & Heq & Hx' & Hfront)]]]; [done|].
        destruct l2 as [|y l2]; [simpl in Hlen; lia|].
        assert (Hxin : x ∈ front).
        { assert (Hl : (front ++ [x']) !! length l1 = Some x)
            by (rewrite <- Heq; by apply list_lookup_middle).
          apply lookup_app_Some in Hl as [Hl | [Hge Hl]].
          - by eapply list_elem_of_lookup_2.
          - apply (f_equal length) in Heq. rewrite !length_app in Heq. simpl in Heq.
            apply lookup_lt_Some in Hl. simpl in Hl. lia. }
        exfalso. by apply (Hfront x).
  - split; [|done]. intros _. left. by apply findIndex_None.
Qed.

(** X3. Moving a queued scenario up and then down again restores the order
    the client started from; with pairwise-distinct queue ids, so does moving
    it down and then up. *)
Theorem newOrder_round_trip
    (executionQueue moved : list ExecutionQueue.QueuedScenario) (scenarioId : string) :
  (ExecutionQueue.newOrder executionQueue scenarioId ExecutionQueue.up = Some moved →
   ExecutionQueue.newOrder moved scenarioId ExecutionQueue.down = Some executionQueue) ∧
  (NoDup (ExecutionQueue.scenario_id <$> executionQueue) →
   ExecutionQueue.newOrder executionQueue scenarioId ExecutionQueue.down = Some moved →
   ExecutionQueue.newOrder moved scenarioId ExecutionQueue.up = Some executionQueue).
Proof.
  split.
  - intros (l1 & y & x & l2 & -> & -> & Hs & Hy & Hl1)%newOrder_up.
    apply newOrder_down. by exists l1, x, y, l2.
  - intros Hnd (l1 & x & y & l2 & -> & -> & Hs & Hl1)%newOrder_down.
    apply newOrder_up. exists l1, y, x, l2. split; [done|]. split; [done|].
    split; [done|]. split; [|done].
    rewrite fmap_app, !fmap_cons in Hnd.
    apply NoDup_app in Hnd as (_ & _ & Hnd).
    apply NoDup_cons in Hnd as [Hx _]. rewrite Hs in Hx.
    intros Heq. apply Hx. rewrite <- Heq. left.
Qed.

Lemma newOrder_round_trip_witness :
  ExecutionQueue.newOrder [queued "s1"; queued "s3"; queued "s2"] "s3" ExecutionQueue.down
    = Some [queued "s1"; queued "s2"; queued "s3"].
Proof.
  apply (proj1 (newOrder_round_trip [queued "s1"; queued "s2"; queued "s3"]
                  [queued "s1"; queued "s3"; queued "s2"] "s3")).
  vm_compute. reflexivity.
Defined.

(** ** Sorting *)

Section SortFacts.
Context {A : Type} (cmp : A → A → Z).

Lemma insertSorted_perm (x : A) (l : list A) : insertSorted cmp x l ≡ₚ x :: l.
Proof.
  induction l as [|y l IH]; simpl; [done|].
  destruct (cmp x y <=? 0); [done|].
  rewrite IH. apply perm_swap.
Qed.

Lemma sortBy_perm (l : list A) : sortBy cmp l ≡ₚ l.
Proof.
  induction l as [|x l IH]; simpl; [done|].
  by rewrite insertSorted_perm, IH.
Qed.

Lemma sortBy_length (l : list A) : length (sortBy cmp l) = length l.
Proof. by rewrite sortBy_perm. Qed.

Lemma sortBy_elem_of (x : A) (l : list A) : x ∈ sortBy cmp l ↔ x ∈ l.
Proof. by rewrite sortBy_perm. Qed.

Hypothesis cmp_total : ∀ a b, cmp a b ≤ 0 ∨ cmp b a ≤ 0.
Hypothesis cmp_trans : ∀ a b c, cmp a b ≤ 0 → cmp b c ≤ 0 → cmp a c ≤ 0.

Lemma insertSorted_sorted (x : A) (l : list A) :
  StronglySorted (fun a b => cmp a b ≤ 0) l →
  StronglySorted (fun a b => cmp a b ≤ 0) (insertSorted cmp x l).
Proof.
  intros Hs. induction l as [|y l IH]; simpl.
  - repeat constructor.
  - apply StronglySorted_inv in Hs as [Hl Hy].
    destruct (cmp x y <=? 0) eqn:Hxy.
    + apply Z.leb_le in Hxy. constructor; [by constructor|].
      constructor; [done|].
      eapply Forall_impl; [exact Hy|]. intros z Hz. by eapply cmp_trans.
    + apply Z.leb_gt in Hxy. constructor; [by apply IH|].
      rewrite insertSorted_perm. constructor; [|done].
      destruct (cmp_total y x); [done | lia].
Qed.

Lemma sortBy_sorted (l : list A) :
  StronglySorted (fun a b => cmp a b ≤ 0) (sortBy cmp l).
Proof.
  induction l as [|x l IH]; simpl; [constructor|].
  by apply insertSorted_sorted.
Qed.

(** The first element of the sorted array goes before every element. *)
Lemma sortBy_head (l : list A) (x : A) :
  head (sortBy cmp l) = Some x → x ∈ l ∧ ∀ y, y ∈ l → cmp x y ≤ 0.
Proof.
  intros Hh. pose proof (sortBy_sorted l) as Hs.
  destruct (sortBy cmp l) as [|x' s] eqn:Hsort; [done|].
  simpl in Hh. injection Hh as ->.
  assert (Hx : x ∈ l) by (rewrite <- sortBy_elem_of, Hsort; left).
  split; [done|]. intros y Hy.
  rewrite <- sortBy_elem_of, Hsort in Hy.
  apply StronglySorted_inv in Hs as [_ Hall].
  apply elem_of_cons in Hy as [-> | Hy].
  - destruct (cmp_total x x); done.
  - rewrite Forall_forall in Hall. by apply Hall.
Qed.

Lemma sortBy_head_None (l : list A) : head (sortBy cmp l) = None ↔ l = [].
Proof.
  split; [|by intros ->].
  intros Hh. destruct (sortBy cmp l) as [|x s] eqn:Hs; [|done].
  apply (f_equal length) in Hs. rewrite sortBy_length in Hs.
  by destruct l.
Qed.

End SortFacts.

Lemma byKey_total {A : Type} (key : A → Z) (a b : A) :
  key a - key b ≤ 0 ∨ key b - key a ≤ 0.
Proof. lia. Qed.

Lemma byKey_trans {A : Type} (key : A → Z) (a b c : A) :
  key a - key b ≤ 0 → key b - key c ≤ 0 → key a - key c ≤ 0.
Proof. lia. Qed.

(** ** The cart editor *)

Section CartEditing.
Import CartEditor.


Lemma editedCart_updateStepField_cart (stepId : string) (cart : list CartItem)
    (st : State) :
  editedCart stepId (updateStepField stepId (GroundTruthCart cart) st) = Some cart.
Proof. unfold editedCart, updateStepField. simpl. by rewrite lookup_insert_eq. Qed.

Lemma currentCart_updateStepField_cart (stepId : string) (cart : list CartItem)
    (st : State) :
  currentCart stepId (updateStepField stepId (GroundTruthCart cart) st) = cart.
Proof. unfold currentCart. by rewrite editedCart_updateStepField_cart. Qed.

(** Writing the cart of a step touches nothing else: not the edits of other
    steps, not the other edited fields of the step, not the step being
    edited, not the free-text carts. *)
Lemma updateStepField_cart_frame (stepId : string) (cart : list CartItem) (st : State) :
  (∀ other, other ≠ stepId →
     stepData (updateStepField stepId (GroundTruthCart cart) st) !! other
       = stepData st !! other) ∧
  (stepData (updateStepField stepId (GroundTruthCart cart) st) !! stepId ≫= voice_text)
    = (stepData st !! stepId ≫= voice_text) ∧
  (stepData (updateStepField stepId (GroundTruthCart cart) st) !! stepId ≫= ai_response)
    = (stepData st !! stepId ≫= ai_response) ∧
  (stepData (updateStepField stepId (GroundTruthCart cart) st) !! stepId ≫= predicted_cart)
    = (stepData st !! stepId ≫= predicted_cart) ∧
  editingStep (updateStepField stepId (GroundTruthCart cart) st) = editingStep st ∧
  cartTextData (updateStepField stepId (GroundTruthCart cart) st) = cartTextData st.
Proof.
  unfold updateStepField. simpl. split; [|split; [|split; [|split]]].
  - intros other Hne. by rewrite lookup_insert_ne.
  - rewrite lookup_insert_eq. by destruct (stepData st !! stepId).
  - rewrite lookup_insert_eq. by destruct (stepData st !! stepId).
  - rewrite lookup_insert_eq. by destruct (stepData st !! stepId).
  - done.
Qed.

End CartEditing.


(** X5. The cart operations of a step (add, remove, update, clone) never
    change the unsaved edits of any other step. *)
Theorem cart_operations_frame (products : list Catalog.Product)
    (steps : list Steps.ScenarioStep) (step : Steps.ScenarioStep)
    (index : nat) (e : CartEditor.CartEdit) (st : CartEditor.State) (other : string) :
  other ≠ Steps.step_id step →
  CartEditor.stepData (CartEditor.addCartItem (Steps.step_id step) st) !! other
    = CartEditor.stepData st !! other ∧
  CartEditor.stepData (CartEditor.removeCartItem (Steps.step_id step) index st) !! other
    = CartEditor.stepData st !! other ∧
  (∀ st', CartEditor.updateCartItem products (Steps.step_id step) index e st = Some st' →
          CartEditor.stepData st' !! other = CartEditor.stepData st !! other) ∧
  CartEditor.stepData (CartEditor.cloneCartFromPreviousStep steps step st).1 !! other
    = CartEditor.stepData st !! other ∧
  CartEditor.stepData (CartEditor.startEditing step st) !! other
    = CartEditor.stepData st !! other.
Proof.
  intros Hne.
  assert (Hw : ∀ cart st0,
    CartEditor.stepData
      (CartEditor.updateStepField (Steps.step_id step) (CartEditor.GroundTruthCart cart) st0)
      !! other = CartEditor.stepData st0 !! other).
  { intros cart st0. by apply updateStepField_cart_frame. }
  split; [apply Hw|]. split; [apply Hw|]. split; [|split].
  - intros st'. unfold CartEditor.updateCartItem. cbv zeta.
    intros (cart & _ & ->)%fmap_Some. apply Hw.
  - unfold CartEditor.cloneCartFromPreviousStep.
    destruct (CartEditor.previousStepOf steps step) as [p|]; [|done].
    destruct (Steps.ground_truth_cart p); [|done]. simpl. apply Hw.
  - unfold CartEditor.startEditing. cbv zeta.
    destruct (CartEditor.editedCart (Steps.step_id step) st); [done|].
    by rewrite Hw.
Qed.

Lemma cart_operations_frame_witness :
  "step-2" ≠ Steps.step_id executedStep ∧
  CartEditor.stepData (CartEditor.addCartItem (Steps.step_id executedStep) editorState)
    !! "step-2"
    = CartEditor.stepData editorState !! "step-2".
Proof.
  assert (Hne : "step-2" ≠ Steps.step_id executedStep) by (simpl; discriminate).
  split; [exact Hne|].
  exact (proj1 (cart_operations_frame [] [] executedStep 0 (CartEditor.EditUnit "box")
                  editorState "step-2" Hne)).
Defined.




(** X7. Starting to edit a step never changes the cart the editor shows for
    it, and from then on the cart shown is the very cart that add, remove and
    update act upon (so the indices of the rendered items are in range);
    cancelling drops the edits and shows the saved cart again. On a step whose
    edits hold no cart, [addCartItem] starts from the empty cart whatever the
    saved cart is. *)
Theorem startEditing_shows_cart (step : Steps.ScenarioStep) (st : CartEditor.State) :
  CartEditor.getEditingCart step (CartEditor.startEditing step st)
    = CartEditor.getEditingCart step st ∧
  CartEditor.currentCart (Steps.step_id step) (CartEditor.startEditing step st)
    = CartEditor.getEditingCart step st ∧
  CartEditor.editingStep (CartEditor.startEditing step st) = Some (Steps.step_id step) ∧
  (∀ index e products,
     (index < length (CartEditor.getEditingCart step st))%nat →
     is_Some (CartEditor.updateCartItem products (Steps.step_id step) index e
                (CartEditor.startEditing step st))) ∧
  CartEditor.getEditingCart step
    (CartEditor.cancelEditing (Steps.step_id step) (CartEditor.startEditing step st))
    = default [] (Steps.ground_truth_cart step) ∧
  (CartEditor.editedCart (Steps.step_id step) st = None →
   CartEditor.getEditingCart step (CartEditor.addCartItem (Steps.step_id step) st)
     = [CartEditor.newItem]).
Proof.
  assert (Hcur : CartEditor.currentCart (Steps.step_id step) (CartEditor.startEditing step st)
                 = CartEditor.getEditingCart step st).
  { unfold CartEditor.startEditing, CartEditor.getEditingCart. cbv zeta.
    destruct (CartEditor.editedCart (Steps.step_id step) st) as [c|] eqn:Hc.
    - unfold CartEditor.currentCart, CartEditor.editedCart in *. simpl. by rewrite Hc.
    - apply currentCart_updateStepField_cart. }
  assert (Hed : CartEditor.editedCart (Steps.step_id step) (CartEditor.startEditing step st)
                = Some (CartEditor.getEditingCart step st)).
  { unfold CartEditor.startEditing, CartEditor.getEditingCart. cbv zeta.
    destruct (CartEditor.editedCart (Steps.step_id step) st) as [c|] eqn:Hc.
    - unfold CartEditor.editedCart in *. simpl. by rewrite Hc.
    - apply editedCart_updateStepField_cart. }
  split; [|split; [done|split; [|split; [|split]]]].
  - unfold CartEditor.getEditingCart at 1. by rewrite Hed.
  - unfold CartEditor.startEditing. cbv zeta.
    by destruct (CartEditor.editedCart (Steps.step_id step) st).
  - intros index e products Hlt.
    unfold CartEditor.updateCartItem. cbv zeta. rewrite Hcur.
    apply lookup_lt_is_Some in Hlt as [item Hitem].
    assert (Hok : ∀ f, is_Some (CartEditor.assignAt index f
                                  (CartEditor.getEditingCart step st))).
    { intros f. unfold CartEditor.assignAt. rewrite Hitem. by eexists. }
    apply fmap_is_Some.
    destruct e as [value | | |]; try apply Hok.
    destruct (negb (bool_decide (value = ""))); [|apply Hok].
    destruct (find _ products); [apply Hok | by eexists].
  - unfold CartEditor.getEditingCart, CartEditor.cancelEditing, CartEditor.editedCart.
    simpl. by rewrite lookup_delete_eq.
  - intros Hnone. unfold CartEditor.getEditingCart, CartEditor.addCartItem.
    rewrite editedCart_updateStepField_cart.
    unfold CartEditor.currentCart. by rewrite Hnone.
Qed.

Lemma descending_head (steps : list Steps.ScenarioStep) (x : Steps.ScenarioStep) :
  head (sortBy (fun a b => Steps.step_number b - Steps.step_number a) steps) = Some x →
  x ∈ steps ∧ ∀ y, y ∈ steps → Steps.step_number y ≤ Steps.step_number x.
Proof.
  intros Hh. apply sortBy_head in Hh as [Hx Hmax].
  - split; [done|]. intros y Hy. specialize (Hmax y Hy). simpl in Hmax. lia.
  - intros a b. simpl. lia.
  - intros a b c. simpl. lia.
Qed.

Lemma previousStepOf_Some (steps : list Steps.ScenarioStep)
    (currentStep p : Steps.ScenarioStep) :
  CartEditor.previousStepOf steps currentStep = Some p →
  p ∈ steps ∧ Steps.step_number p < Steps.step_number currentStep ∧
  ∀ s, s ∈ steps → Steps.step_number s < Steps.step_number currentStep →
       Steps.step_number s ≤ Steps.step_number p.
Proof.
  unfold CartEditor.previousStepOf.
  intros [Hp Hmax]%descending_head.
  apply filter_elem_of in Hp as [Hp Hlt]. apply Z.ltb_lt in Hlt.
  split; [done|]. split; [done|].
  intros s Hs Hslt. apply Hmax. apply filter_elem_of. split; [done|].
  by apply Z.ltb_lt.
Qed.

Lemma previousStepOf_None (steps : list Steps.ScenarioStep)
    (currentStep : Steps.ScenarioStep) :
  CartEditor.previousStepOf steps currentStep = None ↔
  ∀ s, s ∈ steps → Steps.step_number currentStep ≤ Steps.step_number s.
Proof.
  unfold CartEditor.previousStepOf. rewrite sortBy_head_None. split.
  - intros Hnil s Hs.
    destruct (Z.ltb_spec (Steps.step_number s) (Steps.step_number currentStep)); [|done].
    assert (Hin : s ∈ List.filter
              (fun s => Steps.step_number s <? Steps.step_number currentStep) steps).
    { apply filter_elem_of. split; [done|]. by apply Z.ltb_lt. }
    rewrite Hnil in Hin. by apply not_elem_of_nil in Hin.
  - intros Hall.
    destruct (List.filter _ steps) as [|s l] eqn:Hf; [done|].
    assert (Hin : s ∈ List.filter
              (fun s => Steps.step_number s <? Steps.step_number currentStep) steps)
      by (rewrite Hf; left).
    apply filter_elem_of in Hin as [Hin Hlt]. apply Z.ltb_lt in Hlt.
    specialize (Hall s Hin). lia.
Qed.

Lemma NoDup_fmap_elem {A B : Type} (f : A → B) (l : list A) (x y : A) :
  NoDup (f <$> l) → x ∈ l → y ∈ l → f x = f y → x = y.
Proof.
  intros Hnd [i Hi]%list_elem_of_lookup [j Hj]%list_elem_of_lookup Hxy.
  assert (i = j).
  { eapply (NoDup_lookup _ i j (f x) Hnd).
    - by rewrite list_lookup_fmap, Hi.
    - by rewrite list_lookup_fmap, Hj, Hxy. }
  subst. congruence.
Qed.

(** X8. Whenever some step has a smaller step number than the current
    one, [cloneCartFromPreviousStep] takes a step with the greatest step
    number below the current one, whatever the gap between the two: when
    that step has a cart, the cart becomes the edited cart of the current step
    and its size and that step number are reported, and when it has none
    nothing changes and nothing is reported. When no step has a smaller
    number nothing changes either. With pairwise-distinct step numbers, an
    existing step numbered one less than the current one (the step the button
    names) is the one cloned. *)
Theorem cloneCartFromPreviousStep_source (steps : list Steps.ScenarioStep)
    (currentStep : Steps.ScenarioStep) (st : CartEditor.State) :
  (∀ st' n k,
     CartEditor.cloneCartFromPreviousStep steps currentStep st = (st', Some (n, k)) →
     ∃ p cart, p ∈ steps ∧ Steps.step_number p = k ∧
               k < Steps.step_number currentStep ∧
               (∀ s, s ∈ steps → Steps.step_number s < Steps.step_number currentStep →
                     Steps.step_number s ≤ k) ∧
               Steps.ground_truth_cart p = Some cart ∧ n = length cart ∧
               CartEditor.getEditingCart currentStep st' = cart) ∧
  (∀ st', CartEditor.cloneCartFromPreviousStep steps currentStep st = (st', None) →
          st' = st) ∧
  ((∀ s, s ∈ steps → Steps.step_number currentStep ≤ Steps.step_number s) →
   CartEditor.cloneCartFromPreviousStep steps currentStep st = (st, None)) ∧
  (∀ p cart,
     NoDup (Steps.step_number <$> steps) → p ∈ steps →
     Steps.step_number p = Steps.step_number currentStep - 1 →
     Steps.ground_truth_cart p = Some cart →
     CartEditor.cloneCartFromPreviousStep steps currentStep st
       = (CartEditor.updateStepField (Steps.step_id currentStep)
            (CartEditor.GroundTruthCart cart) st,
          Some (length cart, Steps.step_number currentStep - 1))) ∧
  (∀ s, s ∈ steps → Steps.step_number s < Steps.step_number currentStep →
     ∃ p, p ∈ steps ∧ Steps.step_number p < Steps.step_number currentStep ∧
          (∀ s', s' ∈ steps →
                 Steps.step_number s' < Steps.step_number currentStep →
                 Steps.step_number s' ≤ Steps.step_number p) ∧
          CartEditor.cloneCartFromPreviousStep steps currentStep st
            = match Steps.ground_truth_cart p with
              | Some cart =>
                  (CartEditor.updateStepField (Steps.step_id currentStep)
                     (CartEditor.GroundTruthCart cart) st,
                   Some (length cart, Steps.step_number p))
              | None => (st, None)
              end).
Proof.
  split; [|split; [|split; [|split]]]; cycle 4.
  { intros s Hs Hlt.
    destruct (CartEditor.previousStepOf steps currentStep) as [p|] eqn:Hp.
    - pose proof (previousStepOf_Some _ _ _ Hp) as (Hin & Hplt & Hmax).
      exists p. split; [done|]. split; [done|]. split; [done|].
      unfold CartEditor.cloneCartFromPreviousStep. rewrite Hp.
      by destruct (Steps.ground_truth_cart p).
    - exfalso. rewrite previousStepOf_None in Hp. specialize (Hp s Hs). lia. }
  - intros st' n k. unfold CartEditor.cloneCartFromPreviousStep.
    destruct (CartEditor.previousStepOf steps currentStep) as [p|] eqn:Hp; [|done].
    destruct (Steps.ground_truth_cart p) as [cart|] eqn:Hcart; [|done].
    cbv zeta. intros [= <- <- <-].
    apply previousStepOf_Some in Hp as (Hin & Hlt & Hmax).
    exists p, cart. split; [done|]. split; [done|]. split; [done|].
    split; [done|]. split; [done|]. split; [done|].
    unfold CartEditor.getEditingCart.
    by rewrite editedCart_updateStepField_cart.
  - intros st'. unfold CartEditor.cloneCartFromPreviousStep.
    destruct (CartEditor.previousStepOf steps currentStep) as [p|]; [|by intros [= <-]].
    destruct (Steps.ground_truth_cart p); [done | by intros [= <-]].
  - intros Hall. unfold CartEditor.cloneCartFromPreviousStep.
    by rewrite (proj2 (previousStepOf_None steps currentStep) Hall).
  - intros p cart Hnd Hin Hnum Hcart.
    unfold CartEditor.cloneCartFromPreviousStep.
    destruct (CartEditor.previousStepOf steps currentStep) as [x|] eqn:Hx.
    + apply previousStepOf_Some in Hx as (Hxin & Hxlt & Hmax).
      assert (Hle : Steps.step_number p ≤ Steps.step_number x)
        by (apply Hmax; [done | lia]).
      assert (x = p).
      { apply (NoDup_fmap_elem Steps.step_number steps); [done..|lia]. }
      subst x. rewrite Hcart. cbv zeta. by rewrite Hnum.
    + exfalso. rewrite previousStepOf_None in Hx. specialize (Hx p Hin). lia.
Qed.

(** X9. [getProductName] prefers the catalog title of the product to any
    fallback; for a product outside the catalog its answer is never empty;
    and feeding its answer back as the fallback changes nothing. *)
Theorem getProductName_stable (products : list Catalog.Product) (productId : string)
    (fallbackName : option string) :
  (∀ product,
     find (fun p => bool_decide (Catalog.product_id p = productId)) products
       = Some product →
     getProductName products productId fallbackName = Catalog.title product) ∧
  ((∀ p, p ∈ products → Catalog.product_id p ≠ productId) →
   getProductName products productId fallbackName ≠ "") ∧
  getProductName products productId
    (Some (getProductName products productId fallbackName))
    = getProductName products productId fallbackName.
Proof.
  unfold getProductName. split; [|split].
  - by intros product ->.
  - intros Hno. rewrite find_none_elem_of.
    + destruct fallbackName as [f|]; [|done].
      case_bool_decide as Hf; simpl; [done|].
      case_bool_decide; simpl; done.
    + intros p Hp. apply bool_decide_eq_false. auto.
  - destruct (find _ products) as [product|]; [done|].
    generalize ("Product " +:+ productId). intros placeholder.
    destruct fallbackName as [f|]; repeat (case_bool_decide; simpl in *); congruence.
Qed.

(** ** Step counts and batch uploads *)

Lemma descending_sorted (steps : list Steps.ScenarioStep) :
  StronglySorted (fun a b => Steps.step_number b - Steps.step_number a ≤ 0)
    (sortBy (fun a b => Steps.step_number b - Steps.step_number a) steps).
Proof. apply sortBy_sorted; intros; simpl in *; lia. Qed.


(** The step requests [handleEditScenario] plans. *)
Lemma stepCountRequests_characterised (steps : list Steps.ScenarioStep) (editNumSteps : Z) :
  (∀ i, AddStep i ∈ stepCountRequests steps editNumSteps ↔
        Z.of_nat (length steps) < i ≤ editNumSteps) ∧
  (∀ stepId, DeleteStep stepId ∈ stepCountRequests steps editNumSteps ↔
             editNumSteps < Z.of_nat (length steps) ∧
             ∃ s, s ∈ stepsToRemove steps editNumSteps ∧ Steps.step_id s = stepId) ∧
  (∃ kept, steps ≡ₚ stepsToRemove steps editNumSteps ++ kept ∧
           (editNumSteps ≤ Z.of_nat (length steps) →
            Z.of_nat (length kept) = Z.max editNumSteps 0) ∧
           ∀ d k, d ∈ stepsToRemove steps editNumSteps → k ∈ kept →
                  Steps.step_number k ≤ Steps.step_number d) ∧
  (editNumSteps = Z.of_nat (length steps) → stepCountRequests steps editNumSteps = []) ∧
  (0 ≤ editNumSteps →
   Z.of_nat (length (stepCountRequests steps editNumSteps))
     = Z.abs (editNumSteps - Z.of_nat (length steps))).
Proof.
  set (c := Z.of_nat (length steps)).
  set (sorted := sortBy (fun a b => Steps.step_number b - Steps.step_number a) steps).
  split; [|split; [|split; [|split]]].
  - intros i. unfold stepCountRequests. cbv zeta. fold c.
    destruct (Z.ltb_spec c editNumSteps) as [Hlt | Hge].
    + rewrite list_elem_of_fmap. split.
      * intros (j & [= ->] & Hj). apply elem_of_seqZ in Hj. lia.
      * intros Hi. exists i. split; [done|]. apply elem_of_seqZ. lia.
    + split; [|lia].
      destruct (editNumSteps <? c).
      * intros (s & [=] & _)%list_elem_of_fmap.
      * by intros ?%not_elem_of_nil.
  - intros stepId. unfold stepCountRequests. cbv zeta. fold c.
    destruct (Z.ltb_spec c editNumSteps) as [Hlt | Hge].
    + split; [|lia]. intros (j & [=] & _)%list_elem_of_fmap.
    + destruct (Z.ltb_spec editNumSteps c) as [Hlt | Hge'].
      * rewrite list_elem_of_fmap. split.
        -- intros (s & [= ->] & Hs). split; [done|]. by exists s.
        -- intros (_ & s & Hs & <-). by exists s.
      * split; [by intros ?%not_elem_of_nil | lia].
  - exists (drop (Z.to_nat (c - editNumSteps)) sorted).
    unfold stepsToRemove. fold c sorted. split; [|split].
    + rewrite take_drop. subst sorted. by rewrite sortBy_perm.
    + intros Hle. rewrite length_drop. subst sorted. rewrite sortBy_length.
      subst c. lia.
    + intros d k Hd Hk.
      pose proof (descending_sorted steps) as Hs. fold sorted in Hs.
      rewrite <- (take_drop (Z.to_nat (c - editNumSteps)) sorted) in Hs.
      pose proof (StronglySorted_app_1_elem_of _ _ _ d k Hs Hd Hk) as Hdk.
      simpl in Hdk. lia.
  - intros ->. unfold stepCountRequests. cbv zeta. subst c. by rewrite Z.ltb_irrefl.
  - intros Hn. unfold stepCountRequests, stepsToRemove. cbv zeta. fold c sorted.
    destruct (Z.ltb_spec c editNumSteps) as [Hlt | Hge].
    + rewrite length_fmap, length_seqZ. lia.
    + destruct (Z.ltb_spec editNumSteps c) as [Hlt | Hge'].
      * rewrite length_fmap, length_take. subst sorted. rewrite sortBy_length.
        subst c. lia.
      * simpl. lia.
Qed.

Lemma awaitEach_all (throws : nat → option (option string)) (k : nat)
    (plan : list EditRequest) :
  (∀ j, (j < length plan)%nat → throws (k + j)%nat = None) →
  awaitEach throws k plan = (plan, None).
Proof.
  revert k. induction plan as [|r plan IH]; intros k Hall; [done|]. simpl.
  rewrite <- (Nat.add_0_r k) at 1. rewrite Hall by (simpl; lia).
  rewrite IH; [done|]. intros j Hj.
  replace (S k + j)%nat with (k + S j)%nat by lia. apply Hall. simpl. lia.
Qed.

Lemma awaitEach_first (throws : nat → option (option string)) (k i : nat)
    (plan : list EditRequest) (detail : option string) :
  (i < length plan)%nat → throws (k + i)%nat = Some detail →
  (∀ j, (j < i)%nat → throws (k + j)%nat = None) →
  awaitEach throws k plan = (take (S i) plan, Some detail).
Proof.
  revert k i. induction plan as [|r plan IH]; intros k i Hi Hthrow Hbefore;
    [simpl in Hi; lia|].
  simpl. destruct i as [|i].
  - rewrite Nat.add_0_r in Hthrow. by rewrite Hthrow.
  - rewrite <- (Nat.add_0_r k) at 1. rewrite Hbefore by lia.
    rewrite (IH (S k) i); [done | simpl in Hi; lia | |].
    + by replace (S k + i)%nat with (k + S i)%nat by lia.
    + intros j Hj. replace (S k + j)%nat with (k + S j)%nat by lia.
      apply Hbefore. lia.
Qed.

Lemma awaitEach_prefix (throws : nat → option (option string)) (k : nat)
    (plan : list EditRequest) :
  (awaitEach throws k plan).1 `prefix_of` plan.
Proof.
  revert k. induction plan as [|r plan IH]; intros k; [done|]. simpl.
  destruct (throws k) as [detail|]; simpl.
  - by apply prefix_cons, prefix_nil.
  - specialize (IH (S k)). destruct (awaitEach throws (S k) plan) as [sent rej].
    simpl in *. by apply prefix_cons.
Qed.

(** X10. [handleEditScenario] does nothing when no scenario is being
    edited. Otherwise it sends the update of name and description first and
    then the step requests it plans, one after the other, and stops at the
    first request that is rejected: what it has sent is a prefix of the plan
    that ends with the rejected request, the scenarios are not reloaded, the
    dialog stays open and an error toast with a non-empty text is shown;
    when no request is rejected the whole plan is sent, the scenarios are
    reloaded, the dialog is closed and the success toast is shown. The plan
    holds either additions or deletions, never both: growing from [c] to [n]
    steps plans exactly the step numbers [c+1 .. n]; shrinking plans to delete
    steps with the highest step numbers (every kept step is numbered no higher
    than any deleted one) and keeps [max n 0] of them; an unchanged count
    plans no step request; and for [n >= 0] the plan has [|n - c|] step
    requests. *)
Theorem handleEditScenario_requests (steps : list Steps.ScenarioStep)
    (editName editDescription : string) (editNumSteps : Z)
    (throws : nat → option (option string)) :
  let plan := editPlan editName editDescription steps editNumSteps in
  handleEditScenario None editName editDescription editNumSteps throws = None ∧
  (∃ result,
     handleEditScenario (Some steps) editName editDescription editNumSteps throws
       = Some result ∧
     sent result `prefix_of` plan ∧
     head (sent result) = Some (UpdateScenario editName editDescription) ∧
     ((∀ k, (k < length plan)%nat → throws k = None) →
        result = mkEditResult plan true true
                   (toast_success, "Scenario updated successfully")) ∧
     (∀ i detail,
        (i < length plan)%nat → throws i = Some detail →
        (∀ j, (j < i)%nat → throws j = None) →
        sent result = take (S i) plan ∧
        reloaded result = false ∧ dialogClosed result = false ∧
        ∃ text, editToast result = (toast_error, text) ∧ text ≠ "")) ∧
  plan = UpdateScenario editName editDescription
           :: (EditStep <$> stepCountRequests steps editNumSteps) ∧
  (∀ i, AddStep i ∈ stepCountRequests steps editNumSteps ↔
        Z.of_nat (length steps) < i ≤ editNumSteps) ∧
  (∀ stepId, DeleteStep stepId ∈ stepCountRequests steps editNumSteps ↔
             editNumSteps < Z.of_nat (length steps) ∧
             ∃ s, s ∈ stepsToRemove steps editNumSteps ∧ Steps.step_id s = stepId) ∧
  (∃ kept, steps ≡ₚ stepsToRemove steps editNumSteps ++ kept ∧
           (editNumSteps ≤ Z.of_nat (length steps) →
            Z.of_nat (length kept) = Z.max editNumSteps 0) ∧
           ∀ d k, d ∈ stepsToRemove steps editNumSteps → k ∈ kept →
                  Steps.step_number k ≤ Steps.step_number d) ∧
  (editNumSteps = Z.of_nat (length steps) → stepCountRequests steps editNumSteps = []) ∧
  (0 ≤ editNumSteps →
   Z.of_nat (length (stepCountRequests steps editNumSteps))
     = Z.abs (editNumSteps - Z.of_nat (length steps))).
Proof.
  cbv zeta. split; [done|]. split; [|split; [done|]].
  2: apply stepCountRequests_characterised.
  set (plan := editPlan editName editDescription steps editNumSteps).
  unfold handleEditScenario. fold plan.
  pose proof (awaitEach_prefix throws 0 plan) as Hprefix.
  assert (Hhead : head (awaitEach throws 0 plan).1
                  = Some (UpdateScenario editName editDescription)).
  { subst plan. unfold editPlan. simpl.
    destruct (throws 0%nat); [done|].
    by destruct (awaitEach throws 1 _). }
  assert (Hall : (∀ k, (k < length plan)%nat → throws k = None) →
                 awaitEach throws 0 plan = (plan, None)).
  { intros H. apply awaitEach_all. intros j Hj. by apply H. }
  assert (Hfirst : ∀ i detail,
            (i < length plan)%nat → throws i = Some detail →
            (∀ j, (j < i)%nat → throws j = None) →
            awaitEach throws 0 plan = (take (S i) plan, Some detail)).
  { intros i detail Hi Hthrow Hbefore. by apply awaitEach_first. }
  destruct (awaitEach throws 0 plan) as [requests [detail|]] eqn:Hrun;
    simpl in Hprefix, Hhead.
  - eexists. split; [done|]. simpl. split; [done|]. split; [done|]. split.
    + intros H. by specialize (Hall H).
    + intros i d Hi Hthrow Hbefore.
      specialize (Hfirst i d Hi Hthrow Hbefore). injection Hfirst as -> ->.
      split; [done|]. split; [done|]. split; [done|].
      eexists. split; [done|].
      destruct d as [d|]; simpl; [|done]. by case_bool_decide.
  - eexists. split; [done|]. simpl. split; [done|]. split; [done|]. split.
    + intros H. specialize (Hall H). by injection Hall as ->.
    + intros i d Hi Hthrow Hbefore.
      by specialize (Hfirst i d Hi Hthrow Hbefore).
Qed.


Section UploadFacts.
Import BatchUpload.
Variable localeCompare : string → string → Z.




Lemma snd_zip_take {A B : Type} (l : list A) (k : list B) :
  (zip l k).*2 = take (length l) k.
Proof.
  revert k. induction l as [|x l IH]; intros [|y k]; simpl; [done..|].
  f_equal. apply IH.
Qed.

Lemma uploads_all (files : list File) (steps : list Steps.ScenarioStep) :
  uploads localeCompare files steps
    = zip (stepsWithoutAudio steps) (audioFiles localeCompare files).
Proof.
  unfold uploads. cbv zeta. apply take_ge. rewrite length_zip. lia.
Qed.


Lemma uploads_files (files : list File) (steps : list Steps.ScenarioStep) :
  (uploads localeCompare files steps).*2
    = take (length (stepsWithoutAudio steps)) (audioFiles localeCompare files).
Proof. rewrite uploads_all. apply snd_zip_take. Qed.

End UploadFacts.




(** ** Costs of the cost tab *)

Section CostFacts.
Local Open Scope Q_scope.





End CostFacts.

Section RunningTotals.
Local Open Scope Q_scope.






End RunningTotals.



(** ** Loading the scenario list *)

Section LoadingStatuses.
Import ScenarioList.
Variable answer : string → option ExecutionStatusInfo.

(** What one turn of the loop does, by cases. *)
Lemma checkExecutionStatusOf_cases (st : State) (timer : Z) (scenario : Scenario) :
  (checkExecutionStatusOf answer (st, timer) scenario = (st, timer) ∧
   (is_Some (pollingIntervals st !! scenario_id scenario) ∨
    ∀ r, answer (scenario_id scenario) = Some r → status r ≠ "running")) ∨
  (∃ r, pollingIntervals st !! scenario_id scenario = None ∧
        answer (scenario_id scenario) = Some r ∧ status r = "running" ∧
        checkExecutionStatusOf answer (st, timer) scenario =
          (mkState (scenarios st)
                   (<[scenario_id scenario := r]> (executionStatuses st))
                   (<[scenario_id scenario := mkInterval timer POLL_INTERVAL_MS]>
                      (pollingIntervals st))
                   (completedScenarios st) (toasts st) (timeouts st) (refreshes st),
           timer + 1)).
Proof.
  unfold checkExecutionStatusOf. cbv zeta. simpl.
  destruct (pollingIntervals st !! scenario_id scenario) as [iv|] eqn:Hiv.
  - left. split; [done|]. left. by eexists.
  - destruct (answer (scenario_id scenario)) as [r|] eqn:Hr.
    + case_bool_decide as Hrun.
      * right. exists r. done.
      * left. split; [done|]. right. by intros r' [= <-].
    + left. split; [done|]. right. done.
Qed.

Lemma checkAllExecutionStatuses_invariant (scenarioList : list Scenario)
    (st : State) (timer : Z) :
  loadInvariant answer scenarioList st
    (checkAllExecutionStatuses answer scenarioList st timer).1.
Proof.
  unfold checkAllExecutionStatuses.
  induction scenarioList as [|x l IH] using rev_ind.
  - unfold loadInvariant. simpl. split; [done|]. split; [done|]. split; [|split].
    + intros sid Hnone [iv Hiv]. congruence.
    + done.
    + intros sid r Hin. by apply not_elem_of_nil in Hin.
  - rewrite foldl_snoc.
    destruct (foldl (checkExecutionStatusOf answer) (st, timer) l) as [s t] eqn:Hfold.
    simpl in IH. destruct IH as (Hframe & Hkeep & Hnew & Hentries & Hall).
    destruct (checkExecutionStatusOf_cases s t x)
      as [[-> Hwhy] | (r & Hnone & Hr & Hrun & ->)]; unfold loadInvariant; simpl.
    + split; [done|]. split; [done|]. split; [|split].
      * intros sid Hn Hs. destruct (Hnew sid Hn Hs) as [Hin Hrest].
        split; [|done]. rewrite fmap_app. apply elem_of_app. by left.
      * done.
      * intros sid r. rewrite fmap_app, elem_of_app.
        intros [Hin | ->%list_elem_of_singleton] Hr Hrun; [by eapply Hall|].
        destruct Hwhy as [Hs | Hnot]; [done|]. by destruct (Hnot r Hr).
    + split; [done|]. split; [|split; [|split]].
      * intros sid iv Hiv. destruct (decide (scenario_id x = sid)) as [<- | Hne].
        -- rewrite (Hkeep _ _ Hiv) in Hnone. done.
        -- rewrite lookup_insert_ne by done. by apply Hkeep.
      * intros sid Hn Hs. rewrite fmap_app, elem_of_app.
        destruct (decide (scenario_id x = sid)) as [<- | Hne].
        -- split; [right; by left|]. exists r. by rewrite lookup_insert_eq.
        -- rewrite lookup_insert_ne in Hs by done.
           destruct (Hnew sid Hn Hs) as (Hin & r' & ? & ? & ?).
           split; [by left|]. exists r'. by rewrite lookup_insert_ne.
      * intros sid Hs. destruct (decide (scenario_id x = sid)) as [<- | Hne].
        -- destruct Hs as [[iv Hiv] | Hs].
           ++ rewrite (Hkeep _ _ Hiv) in Hnone. done.
           ++ by rewrite lookup_insert_eq in Hs.
        -- rewrite lookup_insert_ne by done. apply Hentries.
           destruct Hs as [Hs | Hs]; [by left | right].
           by rewrite lookup_insert_ne in Hs.
      * intros sid r'. rewrite fmap_app, elem_of_app.
        intros [Hin | ->%list_elem_of_singleton] Hr' Hrun'.
        -- destruct (decide (scenario_id x = sid)) as [<- | Hne].
           ++ rewrite lookup_insert_eq. by eexists.
           ++ rewrite lookup_insert_ne by done. by eapply Hall.
        -- rewrite lookup_insert_eq. by eexists.
Qed.

End LoadingStatuses.

(** X14. Loading the scenario list ([checkAllExecutionStatuses]) raises no
    toast, schedules no cleanup and marks no scenario as notified; it keeps
    every interval that exists, with its handle, so no scenario gets a second
    poller; a scenario gets a poller exactly when it had none and its status
    answer is [running], and then that answer is its status entry; and the
    status entries of all other scenarios, whether their answer is terminal,
    pending or an error, stay as they were. *)
Theorem checkAllExecutionStatuses_only_running
    (answer : string → option ExecutionStatusInfo)
    (scenarioList : list ScenarioList.Scenario) (st : ScenarioList.State) (timer : Z) :
  let st' := (checkAllExecutionStatuses answer scenarioList st timer).1 in
  (ScenarioList.toasts st' = ScenarioList.toasts st ∧
   ScenarioList.timeouts st' = ScenarioList.timeouts st ∧
   ScenarioList.completedScenarios st' = ScenarioList.completedScenarios st) ∧
  (∀ sid iv, ScenarioList.pollingIntervals st !! sid = Some iv →
             ScenarioList.pollingIntervals st' !! sid = Some iv) ∧
  (∀ sid, ScenarioList.pollingIntervals st !! sid = None →
     (is_Some (ScenarioList.pollingIntervals st' !! sid) ↔
      sid ∈ ScenarioList.scenario_id <$> scenarioList ∧
      ∃ r, answer sid = Some r ∧ status r = "running")) ∧
  (∀ sid r, ScenarioList.pollingIntervals st !! sid = None →
            is_Some (ScenarioList.pollingIntervals st' !! sid) →
            answer sid = Some r → ScenarioList.executionStatuses st' !! sid = Some r) ∧
  (∀ sid, is_Some (ScenarioList.pollingIntervals st !! sid) ∨
          ScenarioList.pollingIntervals st' !! sid = None →
          ScenarioList.executionStatuses st' !! sid
            = ScenarioList.executionStatuses st !! sid).
Proof.
  cbv zeta.
  destruct (checkAllExecutionStatuses_invariant answer scenarioList st timer)
    as ((_ & Hc & Ht & Hto & _) & Hkeep & Hnew & Hentries & Hall).
  split; [done|]. split; [done|]. split; [|split; [|done]].
  - intros sid Hnone. split.
    + intros Hs. destruct (Hnew sid Hnone Hs) as (Hin & r & Hr & Hrun & _).
      split; [done|]. by exists r.
    + intros (Hin & r & Hr & Hrun). by eapply Hall.
  - intros sid r Hnone Hs Hr.
    destruct (Hnew sid Hnone Hs) as (_ & r' & Hr' & _ & He). congruence.
Qed.

(** ** Saving a step, counting products *)

(** X15. [handleStepUpdate] sends nothing for a step without unsaved
    edits. After a successful save the step list has the same length, every
    step with the saved id is replaced by the step the server answered and
    every other step is untouched; the edits of the saved step are gone, so
    the editor shows the cart the server answered, and the unsaved edits of
    the other steps are kept. *)
Theorem handleStepUpdate_saved (stepId : string) (responseStep : Steps.ScenarioStep)
    (steps : list Steps.ScenarioStep) (st : CartEditor.State) :
  (handleStepUpdate stepId responseStep steps st = None ↔
   CartEditor.stepData st !! stepId = None) ∧
  (∀ steps' st',
     handleStepUpdate stepId responseStep steps st = Some (steps', st') →
     length steps' = length steps ∧
     (∀ i s, steps !! i = Some s →
        steps' !! i = Some (if bool_decide (Steps.step_id s = stepId)
                            then responseStep else s)) ∧
     (Steps.step_id responseStep = stepId →
        Steps.step_id <$> steps' = Steps.step_id <$> steps ∧
        CartEditor.getEditingCart responseStep st'
          = default [] (Steps.ground_truth_cart responseStep)) ∧
     CartEditor.editingStep st' = None ∧
     CartEditor.editedCart stepId st' = None ∧
     (∀ other, other ≠ stepId →
        CartEditor.stepData st' !! other = CartEditor.stepData st !! other)).
Proof.
  unfold handleStepUpdate. split.
  - by destruct (CartEditor.stepData st !! stepId).
  - intros steps' st'. destruct (CartEditor.stepData st !! stepId); [|done].
    intros [= <- <-]. split; [apply length_fmap|]. split; [|split; [|split; [|split]]].
    + intros i s Hs. by rewrite list_lookup_fmap, Hs.
    + intros Hid. split.
      * rewrite <- list_fmap_compose. apply list_fmap_ext.
        intros i s _. simpl. case_bool_decide; congruence.
      * unfold CartEditor.getEditingCart, CartEditor.editedCart. simpl.
        by rewrite Hid, lookup_delete_eq.
    + done.
    + unfold CartEditor.editedCart. simpl. by rewrite lookup_delete_eq.
    + intros other Hne. simpl. by rewrite lookup_delete_ne.
Qed.

Section ProductCount.

Lemma addProductIds_spec (items : list CartItem) (ids : JSSet.t) :
  NoDup ids →
  NoDup (foldl addProductId ids items) ∧
  ∀ x, x ∈ foldl addProductId ids items ↔
       x ∈ ids ∨ (x ≠ "" ∧ x ∈ product_id <$> items).
Proof.
  revert ids. induction items as [|item items IH]; intros ids Hnd; simpl.
  - split; [done|]. intros x. split; [by left|].
    intros [? | [_ ?%not_elem_of_nil]]; done.
  - assert (Hnd' : NoDup (addProductId ids item)).
    { unfold addProductId. destruct (negb _); [by apply JSSet_add_NoDup | done]. }
    destruct (IH _ Hnd') as [Hres Hmem]. split; [done|].
    intros x. rewrite Hmem, elem_of_cons.
    unfold addProductId, JSSet.add, JSSet.has.
    case_bool_decide as Hempty; simpl.
    + split; [intros [? | [? ?]]; auto | intros [? | [Hx [-> | ?]]]; auto].
      by destruct Hx.
    + case_bool_decide as Hin; simpl.
      * split; [intros [? | [? ?]]; auto|].
        intros [? | [? [-> | ?]]]; auto.
      * rewrite elem_of_app, list_elem_of_singleton.
        split; [intros [[? | ->] | [? ?]]; auto|].
        intros [? | [? [-> | ?]]]; auto.
Qed.

End ProductCount.

Lemma uniqueProductIds_flat (steps : list Steps.ScenarioStep) (ids : JSSet.t) :
  foldl (fun ids step => foldl addProductId ids (default [] (Steps.ground_truth_cart step)))
        ids steps
  = foldl addProductId ids (allGroundTruthItems steps).
Proof.
  unfold allGroundTruthItems. revert ids.
  induction steps as [|s steps IH]; intros ids; simpl; [done|].
  by rewrite foldl_app, IH.
Qed.

(** X16. The product count on a scenario card is the number of distinct
    non-empty product ids among the ground-truth items of all its steps:
    items without a product id and repeated products are not counted, so the
    count never exceeds the number of items. *)
Theorem uniqueProductCount_distinct (steps : list Steps.ScenarioStep) :
  NoDup (uniqueProductIds steps) ∧
  (∀ x, x ∈ uniqueProductIds steps ↔
        x ≠ "" ∧ x ∈ product_id <$> allGroundTruthItems steps) ∧
  uniqueProductCount steps
    = size (list_to_set (C := gset string)
              (filter (fun x => x ≠ "") (product_id <$> allGroundTruthItems steps))) ∧
  (uniqueProductCount steps ≤ length (allGroundTruthItems steps))%nat.
Proof.
  unfold uniqueProductCount, uniqueProductIds. rewrite uniqueProductIds_flat.
  destruct (addProductIds_spec (allGroundTruthItems steps) JSSet.empty) as [Hnd Hmem];
    [constructor|].
  assert (Hmem' : ∀ x, x ∈ foldl addProductId JSSet.empty (allGroundTruthItems steps) ↔
                       x ≠ "" ∧ x ∈ product_id <$> allGroundTruthItems steps).
  { intros x. rewrite Hmem. split; [intros [?%not_elem_of_nil | ?]; done | by right]. }
  split; [done|]. split; [done|]. split.
  - unfold JSSet.size. rewrite <- (size_list_to_set (C := gset string)) by done.
    f_equal. apply set_eq. intros x.
    rewrite !elem_of_list_to_set, Hmem', list_elem_of_filter. done.
  - unfold JSSet.size.
    rewrite <- (length_fmap product_id (allGroundTruthItems steps)).
    apply submseteq_length, NoDup_submseteq; [done|].
    intros x Hx. by apply Hmem'.
Qed.

(** ** The dashboard *)

Section DashboardFacts.
Import Dashboard.

Lemma accumulated_app (m : string) (o : option AggregatedModelMetrics)
    (l1 l2 : list ModelSummary) :
  accumulated m o (l1 ++ l2) = accumulated m (accumulated m o l1) l2.
Proof. unfold accumulated. apply foldl_app. Qed.

Lemma addSummary_fold_lookup (entries : list (string * ModelSummary))
    (ms : gmap string AggregatedModelMetrics) (m : string) :
  m ∉ IEEE.objectPrototypeNames →
  foldl addSummary ms entries !! m
    = accumulated m (ms !! m)
        (List.filter (fun e => bool_decide (e.1 = m)) entries).*2.
Proof.
  intros Hm. revert ms.
  induction entries as [|[k s] entries IH]; intros ms; simpl; [done|].
  rewrite IH. unfold addSummary at 1. simpl.
  destruct (decide (k = m)) as [-> | Hk].
  - rewrite (bool_decide_eq_false_2 _ Hm), bool_decide_eq_true_2 by done.
    simpl. by rewrite lookup_insert_eq.
  - rewrite (bool_decide_eq_false_2 (k = m)) by done.
    case_bool_decide; [done|]. by rewrite lookup_insert_ne.
Qed.

Lemma addSummary_fold_inherited (entries : list (string * ModelSummary))
    (ms : gmap string AggregatedModelMetrics) (m : string) :
  m ∈ IEEE.objectPrototypeNames → foldl addSummary ms entries !! m = ms !! m.
Proof.
  intros Hm. revert ms.
  induction entries as [|[k s] entries IH]; intros ms; simpl; [done|].
  rewrite IH. unfold addSummary. simpl.
  case_bool_decide as Hk; [done|]. rewrite lookup_insert_ne; [done|].
  by intros ->.
Qed.

Lemma addScenario_fold_lookup (scenarios : list ScenarioData) (acc : DashboardMetrics)
    (m : string) :
  m ∉ IEEE.objectPrototypeNames →
  models (foldl addScenario acc scenarios) !! m
    = accumulated m (models acc !! m) (contributions m scenarios).
Proof.
  intros Hm. revert acc.
  induction scenarios as [|sc scenarios IH]; intros acc; [done|].
  simpl. rewrite IH. unfold contributions. simpl. rewrite accumulated_app.
  f_equal. unfold addScenario.
  destruct (hasResults sc); [|done]. simpl.
  destruct (comparison sc) as [entries|]; simpl; [|done].
  by apply addSummary_fold_lookup.
Qed.

Lemma addScenario_fold_inherited (scenarios : list ScenarioData)
    (acc : DashboardMetrics) (m : string) :
  m ∈ IEEE.objectPrototypeNames →
  models (foldl addScenario acc scenarios) !! m = models acc !! m.
Proof.
  intros Hm. revert acc.
  induction scenarios as [|sc scenarios IH]; intros acc; [done|].
  simpl. rewrite IH. unfold addScenario.
  destruct (hasResults sc); [|done]. simpl.
  destruct (comparison sc) as [entries|]; simpl; [|done].
  by apply addSummary_fold_inherited.
Qed.


Lemma accumulated_Some (m : string) (a : AggregatedModelMetrics)
    (summaries : list ModelSummary) :
  accumulated m (Some a) summaries = Some (foldl (accumulate m) a summaries).
Proof.
  revert a. induction summaries as [|s l IH]; intros a; [done|].
  unfold accumulated in *. simpl. apply IH.
Qed.

Lemma accumulated_None (m : string) (summaries : list ModelSummary) :
  accumulated m None summaries =
    match summaries with
    | [] => None
    | _ => Some (foldl (accumulate m) (blank m) summaries)
    end.
Proof.
  destruct summaries as [|s l]; [done|].
  unfold accumulated. simpl. apply accumulated_Some.
Qed.

(** The counters and weighted sums after the summaries of a model. *)
Lemma accumulate_fold_fields (m : string) (summaries : list ModelSummary)
    (a : AggregatedModelMetrics) :
  let r := foldl (accumulate m) a summaries in
  agg_total_steps r = foldl (fun acc s => acc + total_steps s) (agg_total_steps a) summaries ∧
  agg_total_scenarios r = agg_total_scenarios a + Z.of_nat (length summaries) ∧
  agg_total_exact_matches r
    = foldl (fun acc s => acc + exact_matches s) (agg_total_exact_matches a) summaries ∧
  agg_avg_precision r
    = foldl (fun acc s => acc + avg_precision s * inject_Z (total_steps s))%Q
            (agg_avg_precision a) summaries ∧
  agg_avg_recall r
    = foldl (fun acc s => acc + avg_recall s * inject_Z (total_steps s))%Q
            (agg_avg_recall a) summaries ∧
  agg_avg_f1 r
    = foldl (fun acc s => acc + avg_f1 s * inject_Z (total_steps s))%Q
            (agg_avg_f1 a) summaries ∧
  agg_exact_match_rate r = agg_exact_match_rate a ∧
  agg_avg_latency_ms r = agg_avg_latency_ms a ∧
  agg_avg_cost_per_step r = agg_avg_cost_per_step a.
Proof.
  cbv zeta. revert a. induction summaries as [|s l IH]; intros a; simpl.
  - repeat split; lia.
  - destruct (IH (accumulate m a s)) as (H1 & H2 & H3 & H4 & H5 & H6 & H7 & H8 & H9).
    rewrite H1, H2, H3, H4, H5, H6, H7, H8, H9. simpl. repeat split; lia.
Qed.

Local Open Scope Q_scope.

(** A step-weighted sum of averages in [[0, 1]] lies between [0] and the
    number of steps. *)
Lemma weighted_fold_bounds (avg : ModelSummary → Q) (summaries : list ModelSummary)
    (q : Q) (z : Z) :
  (∀ s, s ∈ summaries → (0 ≤ total_steps s)%Z ∧ 0 <= avg s ∧ avg s <= 1) →
  0 <= q → q <= inject_Z z →
  0 <= foldl (fun acc s => acc + avg s * inject_Z (total_steps s)) q summaries ∧
  foldl (fun acc s => acc + avg s * inject_Z (total_steps s)) q summaries
    <= inject_Z (foldl (fun acc s => (acc + total_steps s)%Z) z summaries).
Proof.
  revert q z. induction summaries as [|s l IH]; intros q z Hall Hq0 Hqz; simpl; [done|].
  destruct (Hall s) as (Hw & Hp0 & Hp1); [left|].
  assert (Hw' : 0 <= inject_Z (total_steps s)).
  { change 0 with (inject_Z 0). by rewrite <- Zle_Qle. }
  assert (Hpw0 : 0 <= avg s * inject_Z (total_steps s))
    by (by apply Qmult_le_0_compat).
  assert (Hpw1 : avg s * inject_Z (total_steps s) <= inject_Z (total_steps s)).
  { rewrite <- (Qmult_1_l (inject_Z (total_steps s))) at 2.
    by apply Qmult_le_compat_r. }
  apply IH.
  - intros s' Hs'. apply Hall. by right.
  - lra.
  - rewrite inject_Z_plus. lra.
Qed.

End DashboardFacts.



(** X17. On the dashboard, the record of a model aggregates exactly the
    summaries under its name in the comparisons fetched for the executed
    scenarios: there is at least one, the name is no property name of
    [Object.prototype], the step and scenario counts are their totals, and
    the average precision, recall and F1 are their step-weighted sums, divided
    by the step total when that total is positive; when it is not, the three
    sums are left undivided and the exact-match rate, the average latency and
    the average cost per step keep their initial [0]. When every such summary
    has a non-negative step count and an average precision in [[0, 1]], the
    aggregated average precision lies in [[0, 1]]. *)
Theorem dashboard_weighted_average (scenarios : list Dashboard.ScenarioData)
    (modelName : string) (agg : Dashboard.AggregatedModelMetrics) :
  Dashboard.models (Dashboard.loadDashboardData scenarios) !! modelName = Some agg →
  let cs := Dashboard.contributions modelName scenarios in
  cs ≠ [] ∧
  (modelName ∉ IEEE.objectPrototypeNames) ∧
  Dashboard.agg_total_steps agg = Dashboard.stepsOf cs ∧
  Dashboard.agg_total_scenarios agg = Z.of_nat (length cs) ∧
  (0 < Dashboard.stepsOf cs →
     Dashboard.agg_avg_precision agg
       = (Dashboard.weightedSum Dashboard.avg_precision cs
          / inject_Z (Dashboard.stepsOf cs))%Q ∧
     Dashboard.agg_avg_recall agg
       = (Dashboard.weightedSum Dashboard.avg_recall cs
          / inject_Z (Dashboard.stepsOf cs))%Q ∧
     Dashboard.agg_avg_f1 agg
       = (Dashboard.weightedSum Dashboard.avg_f1 cs
          / inject_Z (Dashboard.stepsOf cs))%Q) ∧
  (Dashboard.stepsOf cs ≤ 0 →
     Dashboard.agg_avg_precision agg
       = Dashboard.weightedSum Dashboard.avg_precision cs ∧
     Dashboard.agg_avg_recall agg
       = Dashboard.weightedSum Dashboard.avg_recall cs ∧
     Dashboard.agg_avg_f1 agg
       = Dashboard.weightedSum Dashboard.avg_f1 cs ∧
     Dashboard.agg_exact_match_rate agg = 0%Q ∧
     Dashboard.agg_avg_latency_ms agg = 0%Q ∧
     Dashboard.agg_avg_cost_per_step agg = IEEE.zero) ∧
  ((∀ s, s ∈ cs → 0 ≤ Dashboard.total_steps s ∧
                  (0 <= Dashboard.avg_precision s)%Q ∧
                  (Dashboard.avg_precision s <= 1)%Q) →
   (0 <= Dashboard.agg_avg_precision agg)%Q ∧
   (Dashboard.agg_avg_precision agg <= 1)%Q).
Proof.
  unfold Dashboard.loadDashboardData. cbv zeta. simpl.
  rewrite lookup_fmap.
  destruct (decide (modelName ∈ IEEE.objectPrototypeNames)) as [Hinh | Hown].
  { by rewrite addScenario_fold_inherited. }
  rewrite addScenario_fold_lookup by done. simpl.
  rewrite lookup_empty, accumulated_None.
  set (cs := Dashboard.contributions modelName scenarios).
  intros Hagg.
  assert (Hne : cs ≠ []) by (intros E; by rewrite E in Hagg).
  assert (Hsome : Some agg
            = Some (Dashboard.finish
                      (foldl (Dashboard.accumulate modelName)
                             (Dashboard.blank modelName) cs))).
  { rewrite <- Hagg. by destruct cs. }
  injection Hsome as ->. clear Hagg.
  destruct (accumulate_fold_fields modelName cs (Dashboard.blank modelName))
    as (Hsteps & Hscen & _ & Hp & Hr & Hf & Hrate & Hlat & Hcost).
  simpl in Hsteps, Hscen, Hp, Hr, Hf, Hrate, Hlat, Hcost.
  fold (Dashboard.stepsOf cs) in Hsteps.
  fold (Dashboard.weightedSum Dashboard.avg_precision cs) in Hp.
  fold (Dashboard.weightedSum Dashboard.avg_recall cs) in Hr.
  fold (Dashboard.weightedSum Dashboard.avg_f1 cs) in Hf.
  unfold Dashboard.finish. rewrite Hsteps.
  destruct (Z.ltb_spec 0 (Dashboard.stepsOf cs)) as [Hpos | Hnpos]; simpl.
  - rewrite Hscen, Hp, Hr, Hf. split; [done|]. split; [done|]. split; [done|].
    split; [lia|]. split; [done|]. split; [lia|].
    intros Hall.
    destruct (weighted_fold_bounds Dashboard.avg_precision cs 0%Q 0 Hall) as [H0 H1];
      [done | done |].
    fold (Dashboard.weightedSum Dashboard.avg_precision cs) in H0, H1.
    fold (Dashboard.stepsOf cs) in H1.
    assert (Hn : (0 < inject_Z (Dashboard.stepsOf cs))%Q).
    { change 0%Q with (inject_Z 0). by rewrite <- Zlt_Qlt. }
    split.
    + apply Qle_shift_div_l; [done|]. by rewrite Qmult_0_l.
    + apply Qle_shift_div_r; [done|]. by rewrite Qmult_1_l.
  - rewrite Hsteps, Hscen, Hp, Hr, Hf, Hrate, Hlat, Hcost.
    split; [done|]. split; [done|]. split; [done|].
    split; [lia|]. split; [lia|]. split; [done|].
    intros Hall.
    destruct (weighted_fold_bounds Dashboard.avg_precision cs 0%Q 0 Hall) as [H0 H1];
      [done | done |].
    fold (Dashboard.weightedSum Dashboard.avg_precision cs) in H0, H1.
    fold (Dashboard.stepsOf cs) in H1.
    split; [done|].
    assert (Hn : (inject_Z (Dashboard.stepsOf cs) <= 0)%Q).
    { change 0%Q with (inject_Z 0). by rewrite <- Zle_Qle. }
    eapply Qle_trans; [exact H1|]. eapply Qle_trans; [exact Hn|]. done.
Qed.

Lemma dashboard_weighted_average_witness :
  ∃ agg,
    Dashboard.models (Dashboard.loadDashboardData sampleScenarios) !! "gemini-2.5-pro"
      = Some agg ∧
    Dashboard.agg_total_steps agg
      = Dashboard.stepsOf (Dashboard.contributions "gemini-2.5-pro" sampleScenarios).
Proof.
  destruct (Dashboard.models (Dashboard.loadDashboardData sampleScenarios)
              !! "gemini-2.5-pro") as [agg|] eqn:Hagg.
  - exists agg. split; [done|].
    apply (dashboard_weighted_average sampleScenarios "gemini-2.5-pro" agg Hagg).
  - vm_compute in Hagg. discriminate.
Defined.


(** ** The two price tables *)

Lemma IEEE_getProperty_Dashboard_MODEL_PRICING (modelName : string) :
  IEEE.orProperty (IEEE.getProperty IEEE.Dashboard.MODEL_PRICING modelName)
                  (IEEE.getProperty IEEE.Dashboard.MODEL_PRICING "gemini-2.5-pro")
    = if bool_decide (modelName = "gemini-2.5-flash")
      then IEEE.Own IEEE.Dashboard.PRICING_FLASH
      else if bool_decide (modelName ∈ IEEE.objectPrototypeNames) then IEEE.Inherited
      else IEEE.Own IEEE.Dashboard.PRICING_PRO.
Proof.
  unfold IEEE.getProperty, IEEE.Dashboard.MODEL_PRICING.
  destruct (decide (modelName = "gemini-2.5-pro")) as [-> | Hpro]; [done|].
  rewrite (lookup_insert_ne _ "gemini-2.5-pro" modelName) by done.
  destruct (decide (modelName = "gemini-2.5-flash")) as [-> | Hflash]; [done|].
  rewrite lookup_insert_ne, lookup_empty by done.
  rewrite (bool_decide_eq_false_2 _ Hflash). simpl.
  by destruct (bool_decide (modelName ∈ IEEE.objectPrototypeNames)).
Qed.

Lemma mul_zero_price (x : IEEE.number) :
  (∃ m e, x = S754_finite false m e) →
  IEEE.mul (IEEE.div (IEEE.ofZ 0) (IEEE.ofZ 1000000)) x = IEEE.zero.
Proof. by intros (m & e & ->). Qed.

(** X19. The dashboard and the scenario views price the same token counts
    with two copies of [calculateCost] and two price tables. For every model
    name other than [gemini-2.5-flash] and non-zero counts the two return the
    same number: the [gemini-2.5-pro] price for the names of no property of
    [Object.prototype], and [NaN] for the others. For [gemini-2.5-flash] the
    scenario views charge [0.30] and [2.50] per million tokens where the
    dashboard charges [0.15] and [0.60]. When one count is zero and the other
    positive the scenario views return [0], whatever the name, while the
    dashboard returns the charge for the positive count, and [NaN] under a
    name inherited from [Object.prototype]. *)
Theorem dashboard_cost_differs (inputTokens outputTokens : Z) (modelName : string) :
  (inputTokens ≠ 0 → outputTokens ≠ 0 → modelName ≠ "gemini-2.5-flash" →
   IEEE.Dashboard.calculateCost inputTokens outputTokens modelName
     = IEEE.calculateCost inputTokens outputTokens modelName ∧
   (modelName ∉ IEEE.objectPrototypeNames →
    IEEE.calculateCost inputTokens outputTokens modelName
      = IEEE.add
          (IEEE.mul (IEEE.div (IEEE.ofZ inputTokens) (IEEE.ofZ 1000000))
                    (IEEE.decimal 125 100))
          (IEEE.mul (IEEE.div (IEEE.ofZ outputTokens) (IEEE.ofZ 1000000))
                    (IEEE.ofZ 10)))) ∧
  (modelName ∈ IEEE.objectPrototypeNames →
   IEEE.Dashboard.calculateCost inputTokens outputTokens modelName = IEEE.NaN) ∧
  (inputTokens ≠ 0 → outputTokens ≠ 0 →
   IEEE.calculateCost inputTokens outputTokens "gemini-2.5-flash"
     = IEEE.add
         (IEEE.mul (IEEE.div (IEEE.ofZ inputTokens) (IEEE.ofZ 1000000))
                   (IEEE.decimal 30 100))
         (IEEE.mul (IEEE.div (IEEE.ofZ outputTokens) (IEEE.ofZ 1000000))
                   (IEEE.decimal 250 100)) ∧
   IEEE.Dashboard.calculateCost inputTokens outputTokens "gemini-2.5-flash"
     = IEEE.add
         (IEEE.mul (IEEE.div (IEEE.ofZ inputTokens) (IEEE.ofZ 1000000))
                   (IEEE.decimal 15 100))
         (IEEE.mul (IEEE.div (IEEE.ofZ outputTokens) (IEEE.ofZ 1000000))
                   (IEEE.decimal 60 100))) ∧
  (inputTokens = 0 ∨ outputTokens = 0 →
   IEEE.calculateCost inputTokens outputTokens modelName = IEEE.zero) ∧
  (modelName ∉ IEEE.objectPrototypeNames →
   let price := if bool_decide (modelName = "gemini-2.5-flash")
                then IEEE.Dashboard.PRICING_FLASH else IEEE.Dashboard.PRICING_PRO in
   (0 < outputTokens →
    IEEE.Dashboard.calculateCost 0 outputTokens modelName
      = IEEE.mul (IEEE.div (IEEE.ofZ outputTokens) (IEEE.ofZ 1000000))
                 (IEEE.Dashboard.output price)) ∧
   (0 < inputTokens →
    IEEE.Dashboard.calculateCost inputTokens 0 modelName
      = IEEE.mul (IEEE.div (IEEE.ofZ inputTokens) (IEEE.ofZ 1000000))
                 (IEEE.Dashboard.input price))).
Proof.
  assert (Hscenario : ∀ m, inputTokens ≠ 0 → outputTokens ≠ 0 →
            IEEE.calculateCost inputTokens outputTokens m
            = let pricing :=
                IEEE.orProperty (IEEE.getProperty IEEE.MODEL_PRICING m)
                                (IEEE.getProperty IEEE.MODEL_PRICING "gemini-2.5-pro") in
              IEEE.add
                (IEEE.mul (IEEE.div (IEEE.ofZ inputTokens) (IEEE.ofZ 1000000))
                          (IEEE.field IEEE.input_small pricing))
                (IEEE.mul (IEEE.div (IEEE.ofZ outputTokens) (IEEE.ofZ 1000000))
                          (IEEE.field IEEE.output_small pricing))).
  { intros m Hi Ho. unfold IEEE.calculateCost, falsy.
    by rewrite (proj2 (Z.eqb_neq inputTokens 0) Hi),
               (proj2 (Z.eqb_neq outputTokens 0) Ho). }
  assert (Hprice : ∀ pr : IEEE.Dashboard.Pricing,
            pr = IEEE.Dashboard.PRICING_FLASH ∨ pr = IEEE.Dashboard.PRICING_PRO →
            (∃ m e, IEEE.Dashboard.input pr = S754_finite false m e) ∧
            (∃ m e, IEEE.Dashboard.output pr = S754_finite false m e)).
  { intros pr [-> | ->]; vm_compute; split; by do 2 eexists. }
  split; [|split; [|split; [|split]]].
  - intros Hi Ho Hflash. rewrite Hscenario by done.
    unfold IEEE.Dashboard.calculateCost. cbv zeta.
    rewrite IEEE_getProperty_MODEL_PRICING, IEEE_getProperty_Dashboard_MODEL_PRICING.
    rewrite !(bool_decide_eq_false_2 _ Hflash).
    case_bool_decide as Hinh; [done|]. split; [done|]. intros _.
    simpl. f_equal; f_equal; by vm_compute.
  - intros Hinh. unfold IEEE.Dashboard.calculateCost. cbv zeta.
    rewrite IEEE_getProperty_Dashboard_MODEL_PRICING.
    destruct (table_names_not_inherited modelName Hinh) as [_ Hflash].
    rewrite (bool_decide_eq_false_2 _ Hflash), (bool_decide_eq_true_2 _ Hinh).
    simpl. by rewrite !mul_NaN.
  - intros Hi Ho. rewrite Hscenario by done. split; [done|].
    unfold IEEE.Dashboard.calculateCost. cbv zeta.
    by rewrite IEEE_getProperty_Dashboard_MODEL_PRICING.
  - intros Hzero. unfold IEEE.calculateCost, falsy.
    destruct Hzero as [-> | ->]; [done|]. by rewrite orb_true_r.
  - intros Hown. cbv zeta.
    unfold IEEE.Dashboard.calculateCost. cbv zeta.
    rewrite IEEE_getProperty_Dashboard_MODEL_PRICING.
    rewrite (bool_decide_eq_false_2 _ Hown).
    set (price := if bool_decide (modelName = "gemini-2.5-flash")
                  then IEEE.Dashboard.PRICING_FLASH else IEEE.Dashboard.PRICING_PRO).
    assert (Hfield : ∀ f : IEEE.Dashboard.Pricing → IEEE.number,
              IEEE.field f (if bool_decide (modelName = "gemini-2.5-flash")
                            then IEEE.Own IEEE.Dashboard.PRICING_FLASH
                            else IEEE.Own IEEE.Dashboard.PRICING_PRO) = f price).
    { intros f. subst price. by case_bool_decide. }
    rewrite !Hfield.
    destruct (Hprice price) as [Hin Hout];
      [subst price; case_bool_decide; [by left | by right]|].
    split.
    + intros Ho. rewrite (mul_zero_price _ Hin). apply add_zero_l.
      apply share_nonnegative; [lia | done].
    + intros Hi. rewrite (mul_zero_price _ Hout). apply add_zero_r.
      apply share_nonnegative; [lia | done].
Qed.

(** The cost of [1000] input and [200] output tokens of [gemini-2.5-flash]:
    the number printed as [0.00027] on the dashboard and
    [0.0007999999999999999] in the scenario views. *)
Example flash_cost_in_both_views :
  IEEE.Dashboard.calculateCost 1000 200 "gemini-2.5-flash"
    = S754_finite false 4980620899901579 (-64) ∧
  IEEE.calculateCost 1000 200 "gemini-2.5-flash"
    = S754_finite false 7378697629483820 (-63).
Proof. vm_compute. done. Qed.

(** ** The session *)

Ltac session_simpl :=
  unfold App.rerender, App.onTimeout, App.handleLogout, App.effectBody,
    App.effectCleanup, App.resetInactivityTimer, App.clearCurrent, App.clearTimeout;
  simpl; rewrite ?Nat.eqb_refl; simpl.

Lemma step_sessionInvariant (now : Z) (st : App.State) (e : App.Event) :
  sessionInvariant st → sessionInvariant (App.step now st e).
Proof.
  destruct st as [auth email page ref lis ts next toasts].
  unfold sessionInvariant. simpl. intros [-> Hinv].
  destruct auth.
  - destruct Hinv as (handle & due & -> & -> & Hlt).
    destruct e as [email' | | page' | | handle']; simpl.
    + split; [done|]. by exists handle, due.
    + session_simpl. split; [done|].
      exists next, (now + App.INACTIVITY_TIMEOUT). split; [done|]. split; [done|]. lia.
    + split; [done|]. by exists handle, due.
    + by session_simpl.
    + destruct (Nat.eqb_spec handle handle') as [<- | Hne]; simpl.
      * destruct (Z.leb_spec due now); simpl.
        -- by session_simpl.
        -- split; [done|]. by exists handle, due.
      * split; [done|]. by exists handle, due.
  - destruct Hinv as (-> & -> & -> & ->).
    destruct e as [email' | | page' | | handle']; simpl; try done.
    session_simpl. split; [done|].
    exists next, (now + App.INACTIVITY_TIMEOUT). split; [done|]. split; [done|]. lia.
Qed.

Lemma run_sessionInvariant (events : list (Z * App.Event)) (st : App.State) :
  sessionInvariant st → sessionInvariant (App.run st events).
Proof.
  revert st. induction events as [|[now e] events IH]; intros st Hst; [done|].
  apply IH. by apply step_sessionInvariant.
Qed.

Lemma initial_sessionInvariant : sessionInvariant App.initial.
Proof. by unfold sessionInvariant. Qed.

(** X20. Whatever the sequence of logins, user activity, navigation, logout
    clicks and timeouts, the session keeps exactly one inactivity timeout set
    while signed in, the one [inactivityTimerRef] holds, with the activity
    listeners attached; and while signed out no timeout is set, no listener
    is attached, the user email is empty and the page is the dashboard. *)
Theorem session_single_timer (events : list (Z * App.Event)) :
  let st := App.run App.initial events in
  App.listening st = App.isAuthenticated st ∧
  (App.isAuthenticated st = true →
   ∃ handle due, App.inactivityTimerRef st = Some handle ∧
                 App.timers st = [(handle, due)]) ∧
  (App.isAuthenticated st = false →
   App.timers st = [] ∧ App.inactivityTimerRef st = None ∧
   App.userEmail st = "" ∧ App.currentPage st = App.dashboard).
Proof.
  cbv zeta.
  destruct (run_sessionInvariant events App.initial initial_sessionInvariant)
    as [Hlis Hinv].
  split; [done|].
  destruct (App.isAuthenticated (App.run App.initial events)).
  - split; [|done]. intros _. destruct Hinv as (handle & due & ? & ? & _).
    by exists handle, due.
  - split; [done|]. by intros _.
Qed.

(** X21. In every reachable state of the session: a login and every user
    activity while signed in move the single timeout to 30 minutes after
    that event; navigation, and events that do not apply, leave it where it
    is; and the session-expired toast is raised only by the timeout that is
    set, not before it is due, and then the user is signed out with no
    timeout left. A logout click signs out without a toast. *)
Theorem session_expiry (events : list (Z * App.Event)) (now : Z) :
  let st := App.run App.initial events in
  (App.isAuthenticated st = true →
   let st' := App.step now st App.Activity in
   App.isAuthenticated st' = true ∧ App.toasts st' = App.toasts st ∧
   ∃ handle, App.timers st' = [(handle, now + 1800000)]) ∧
  (App.isAuthenticated st = false →
   ∀ email,
     let st' := App.step now st (App.Login email) in
     App.isAuthenticated st' = true ∧ App.userEmail st' = email ∧
     App.toasts st' = App.toasts st ∧
     ∃ handle, App.timers st' = [(handle, now + 1800000)]) ∧
  (∀ page, App.timers (App.step now st (App.Navigate page)) = App.timers st) ∧
  (App.isAuthenticated st = false →
   App.step now st App.Activity = st ∧ App.step now st App.LogoutClick = st) ∧
  (App.isAuthenticated st = true →
   let st' := App.step now st App.LogoutClick in
   App.isAuthenticated st' = false ∧ App.timers st' = [] ∧
   App.toasts st' = App.toasts st) ∧
  (∀ handle,
     let st' := App.step now st (App.TimerFires handle) in
     (∃ due, App.timers st = [(handle, due)] ∧ due ≤ now ∧
             App.isAuthenticated st' = false ∧ App.timers st' = [] ∧
             App.toasts st'
               = App.toasts st ++ ["Session expired due to inactivity"]) ∨
     st' = st).
Proof.
  cbv zeta.
  pose proof (run_sessionInvariant events App.initial initial_sessionInvariant) as Hinv.
  destruct (App.run App.initial events) as [auth email page ref lis ts next toasts].
  unfold sessionInvariant in Hinv. simpl in Hinv. destruct Hinv as [-> Hinv].
  simpl. destruct auth.
  - destruct Hinv as (handle & due & -> & -> & Hlt).
    split.
    { intros _. session_simpl. split; [done|]. split; [done|]. by exists next. }
    split; [done|]. split; [done|]. split; [done|]. split.
    { intros _. by session_simpl. }
    intros handle'. simpl.
    destruct (Nat.eqb_spec handle handle') as [<- | Hne]; simpl; [|by right].
    destruct (Z.leb_spec due now); simpl; [|by right].
    left. exists due.
    by session_simpl.
  - destruct Hinv as (-> & -> & -> & ->).
    split; [done|]. split.
    { intros _ email'. session_simpl. split; [done|]. split; [done|]. split; [done|].
      by exists next. }
    split; [done|]. split; [done|]. split; [done|].
    intros handle'. by right.
Qed.

(** ** The chat view *)

Section ChatFacts.

Variable trim : string → string.

Lemma step_chatInvariant (st : Chat.State) (e : Chat.Event) :
  chatInvariant trim st → chatInvariant trim (Chat.step trim st e).
Proof.
  destruct st as [ms inp ld err reqs]. unfold chatInvariant. simpl.
  intros [Hreq Hms].
  destruct e as [value | now | answer | ok |]; simpl.
  - destruct ld; simpl; done.
  - unfold Chat.handleSend. simpl.
    case_bool_decide as Hblank; simpl; [done|].
    destruct ld; simpl; [done|]. subst reqs. split.
    + split; [done|]. by exists inp.
    + intros m [Hm | ->%list_elem_of_singleton]%elem_of_app; [by apply Hms|].
      by left.
  - unfold Chat.onAnswer. simpl.
    destruct reqs as [|c rest]; [done|].
    destruct ld; [|done]. destruct Hreq as (_ & c' & [= -> ->] & _).
    destruct answer as [response timestamp | detail]; simpl; [|done].
    split; [done|].
    intros m [Hm | ->%list_elem_of_singleton]%elem_of_app; [by apply Hms|].
    by right.
  - destruct ok; simpl; [|done]. split; [done|]. intros m Hm. by apply elem_of_nil in Hm.
  - done.
Qed.

Lemma run_chatInvariant (events : list Chat.Event) (st : Chat.State) :
  chatInvariant trim st → chatInvariant trim (Chat.run trim st events).
Proof.
  revert st. induction events as [|e events IH]; intros st Hst; [done|].
  apply IH. by apply step_chatInvariant.
Qed.

Lemma initial_chatInvariant : chatInvariant trim Chat.initial.
Proof. split; [done|]. intros m Hm. by apply elem_of_nil in Hm. Qed.

End ChatFacts.

(** X22. Whatever the sequence of typing, sending, answers, clears and
    failed health checks, the chat view has at most one message awaiting its
    answer, and has one exactly while [loading]; that message is not blank,
    and the input box is empty while it is awaited; and every message in the
    history is a model reply or a user message that is not blank. *)
Theorem chat_one_request (trim : string → string) (events : list Chat.Event) :
  let st := Chat.run trim Chat.initial events in
  (length (Chat.requests st) ≤ 1)%nat ∧
  (Chat.loading st = true ↔ Chat.requests st ≠ []) ∧
  (Chat.loading st = true → Chat.input st = "") ∧
  (∀ c, c ∈ Chat.requests st → trim c ≠ "") ∧
  (∀ m, m ∈ Chat.messages st →
        (Chat.role m = "user" ∧ trim (Chat.content m) ≠ "") ∨ Chat.role m = "model").
Proof.
  cbv zeta.
  destruct (run_chatInvariant trim events Chat.initial (initial_chatInvariant trim))
    as [Hreq Hms].
  destruct (Chat.loading (Chat.run trim Chat.initial events)).
  - destruct Hreq as (Hin & c & -> & Hc).
    split; [simpl; lia|]. split; [done|]. split; [done|]. split; [|done].
    by intros c' ->%list_elem_of_singleton.
  - rewrite Hreq. split; [simpl; lia|]. split; [done|]. split; [done|].
    split; [|done]. intros c Hc. by apply elem_of_nil in Hc.
Qed.

(** X23. In every reachable state of the chat view: sending a message that
    is not blank while nothing is awaited appends it to the history, empties
    the input box, clears the error and posts exactly that message; a reply
    to the awaited message is appended to the history and a failure leaves
    the history as it is and shows an error that is never empty; and when the
    history is cleared while a message is awaited, the reply that arrives
    afterwards is the only entry of the history. *)
Theorem chat_answer_after_clear (trim : string → string) (events : list Chat.Event) :
  let st := Chat.run trim Chat.initial events in
  (∀ now, trim (Chat.input st) ≠ "" → Chat.loading st = false →
     Chat.handleSend trim now st
       = Chat.mkState (Chat.messages st ++ [Chat.mkChatMessage "user" (Chat.input st) now])
                      "" true None [Chat.input st]) ∧
  (∀ now, trim (Chat.input st) = "" ∨ Chat.loading st = true →
     Chat.handleSend trim now st = st) ∧
  (Chat.loading st = true →
   (∀ response timestamp,
      let st' := Chat.onAnswer (Chat.Replied response timestamp) st in
      Chat.messages st'
        = Chat.messages st ++ [Chat.mkChatMessage "model" response timestamp] ∧
      Chat.loading st' = false ∧ Chat.requests st' = []) ∧
   (∀ detail,
      let st' := Chat.onAnswer (Chat.Failed detail) st in
      Chat.messages st' = Chat.messages st ∧
      Chat.loading st' = false ∧ Chat.requests st' = [] ∧
      ∃ text, Chat.error st' = Some text ∧ text ≠ "") ∧
   (∀ response timestamp,
      Chat.messages
        (Chat.onAnswer (Chat.Replied response timestamp) (Chat.onCleared true st))
        = [Chat.mkChatMessage "model" response timestamp])) ∧
  (Chat.loading st = false → ∀ answer, Chat.onAnswer answer st = st).
Proof.
  cbv zeta.
  destruct (run_chatInvariant trim events Chat.initial (initial_chatInvariant trim))
    as [Hreq _].
  destruct (Chat.run trim Chat.initial events) as [ms inp ld err reqs].
  simpl in *. unfold Chat.handleSend, Chat.onAnswer, Chat.onCleared. simpl.
  split.
  { intros now Hblank ->. subst reqs. by rewrite bool_decide_eq_false_2. }
  split.
  { intros now [Hblank | ->]; [by rewrite bool_decide_eq_true_2|].
    by rewrite orb_true_r. }
  destruct ld.
  - destruct Hreq as (-> & c & -> & Hc). split; [|done]. intros _.
    split; [done|]. split; [|done].
    intros detail. split; [done|]. split; [done|]. split; [done|].
    eexists. split; [done|].
    destruct detail as [d|]; simpl; [|done]. by case_bool_decide.
  - subst reqs. split; [done|]. by intros _ answer.
Qed.
